(** * The rpc client transport, the ssx transforms and the kafka join_group
      handler: a shallow embedding and its properties

    Sources embedded here:
    - [src/v/rpc/transport.h]: [base_transport::is_valid],
      [internal::map_result], [transport::send_typed], the members of
      [transport] and the constructor of [client].
    - [src/v/ssx/future-util.h]: [async_transform], [parallel_transform].
    - [src/v/kafka/requests/join_group_request.cc]: [join_group_request::decode]
      and [join_group_api::process].

    [transport.cc] (do_send, dispatch_send, make_response_handler, dispatch,
    fail_outstanding_futures) is not part of the sources at hand; the
    definitions that stand for it are marked [Modelled from the spec]. *)

From stdpp Require Import gmap list strings sorting.
From Stdlib Require Import ZArith Lia.

(** ** Fixed-width unsigned integers *)

Definition wrap (w : Z) (x : Z) : Z := (x mod 2 ^ w)%Z.

(** ** Futures

    A seastar future that has resolved holds a value or an exception. The
    exception type is left open. *)

Inductive future (exn A : Type) : Type :=
| ready (a : A)
| exceptional (e : exn).
Arguments ready {exn A} a.
Arguments exceptional {exn A} e.

Module rpc.
Local Open Scope Z_scope.

(** [rpc/errc.h]: the error codes named by [transport.h] and by the error
    taxonomy of the design. *)
Module errc.
Inductive t : Set :=
| success
| disconnected
| exponential_backoff
| service_error
| client_request_timeout
| method_not_found
| version_not_supported
| corrupt_header
| corrupt_body
| shutting_down.
End errc.

(** [result<T>] of [outcome.h]: a value or an error code. *)
Inductive result (T : Type) : Type :=
| ok (v : T)
| failure (e : errc.t).
Arguments ok {T} v.
Arguments failure {T} e.

(** [rpc/types.h], [enum class status : uint32_t]. The numeric values of the
    enumerators are declared outside the sources at hand, so they are a
    parameter of everything that compares a status. *)
Module status.
Record codes : Set := mk_codes {
  success : Z;
  method_not_found : Z;
  request_timeout : Z;
  server_error : Z }.

(** Enumerators of one enum that [map_result] tells apart are pairwise
    different. *)
Definition distinct (c : codes) : Prop :=
  NoDup [success c; method_not_found c; request_timeout c; server_error c].

(** Modelled from the spec: the values of the [status] enumerators, which
    [rpc/types.h] declares; section 6 of the design gives 0=success,
    1=method_not_found, 2=request_timeout, 3=server_error. *)
Definition wire_codes : codes :=
  {| success := 0; method_not_found := 1; request_timeout := 2;
     server_error := 3 |}.
End status.

(** The frame header ([rpc/types.h]); every field is an unsigned integer of
    the width given in the wire layout. *)
Record header : Set := mk_header {
  version : Z;
  header_checksum : Z;
  compression : Z;
  payload_size : Z;
  meta : Z;
  correlation_id : Z;
  payload_checksum : Z }.

(** [client_context<T>]: the response header and the decoded payload. *)
Record client_context (T : Type) : Type := mk_client_context {
  hdr : header;
  data : T }.
Arguments mk_client_context {T} hdr data.
Arguments hdr {T} c.
Arguments data {T} c.

(** [streaming_context]: exposes the response header; [signal_body_parse]
    is the notification the caller sends once the body has been read. *)
Record streaming_context : Set := mk_streaming_context {
  get_header : header }.

(** [internal::map_result], transport.h:141-165. [static_cast<status>] keeps
    the 32-bit value of [hdr.meta]. *)
Definition map_result (st : status.codes) {T : Type} (h : header) (d : T)
  : result (client_context T) :=
  let s := meta h in
  if decide (s = status.success st) then
    ok {| hdr := h; data := d |}
  else if decide (s = status.request_timeout st) then
    failure errc.client_request_timeout
  else if decide (s = status.server_error st) then
    failure errc.service_error
  else if decide (s = status.method_not_found st) then
    failure errc.method_not_found
  else failure errc.service_error.

(** *** Outbound buffers and call options *)

Record client_opts : Set := mk_client_opts {
  timeout : Z;
  opt_compression : Z;
  opt_min_compression_bytes : Z }.

(** [netbuf]: header fields that are set before the send, and the payload. *)
Record netbuf : Set := mk_netbuf {
  nb_compression : Z;
  nb_min_compression_bytes : Z;
  nb_service_method_id : Z;
  nb_correlation_id : Z;
  buffer : list Byte.byte }.

Definition new_netbuf : netbuf :=
  {| nb_compression := 0; nb_min_compression_bytes := 0;
     nb_service_method_id := 0; nb_correlation_id := 0; buffer := [] |}.

Definition set_compression (c : Z) (b : netbuf) : netbuf :=
  {| nb_compression := c;
     nb_min_compression_bytes := nb_min_compression_bytes b;
     nb_service_method_id := nb_service_method_id b;
     nb_correlation_id := nb_correlation_id b; buffer := buffer b |}.

Definition set_min_compression_bytes (n : Z) (b : netbuf) : netbuf :=
  {| nb_compression := nb_compression b;
     nb_min_compression_bytes := n;
     nb_service_method_id := nb_service_method_id b;
     nb_correlation_id := nb_correlation_id b; buffer := buffer b |}.

Definition set_service_method_id (m : Z) (b : netbuf) : netbuf :=
  {| nb_compression := nb_compression b;
     nb_min_compression_bytes := nb_min_compression_bytes b;
     nb_service_method_id := m;
     nb_correlation_id := nb_correlation_id b; buffer := buffer b |}.

Definition set_correlation_id (c : Z) (b : netbuf) : netbuf :=
  {| nb_compression := nb_compression b;
     nb_min_compression_bytes := nb_min_compression_bytes b;
     nb_service_method_id := nb_service_method_id b;
     nb_correlation_id := c; buffer := buffer b |}.

Definition set_buffer (p : list Byte.byte) (b : netbuf) : netbuf :=
  {| nb_compression := nb_compression b;
     nb_min_compression_bytes := nb_min_compression_bytes b;
     nb_service_method_id := nb_service_method_id b;
     nb_correlation_id := nb_correlation_id b; buffer := p |}.

Definition size_bytes (b : netbuf) : Z := Z.of_nat (length (buffer b)).

(** *** The transport object *)

(** [ss::input_stream<char>]: the bytes not yet consumed and the end-of-file
    flag that [eof()] reports. *)
Record input_stream : Set := mk_input_stream {
  unread : list Byte.byte;
  eof : bool }.

(** [ss::connected_socket]: only its presence matters here. *)
Record connected_socket : Set := mk_connected_socket {
  socket_id : Z }.

(** [internal::response_handler]: the one-shot completion slot of a call.
    [slot_id] stands for the identity of the heap cell the table owns;
    [slot_units] is what the call holds of the memory semaphore. *)
Record response_handler : Set := mk_response_handler {
  slot_id : nat;
  slot_units : Z }.

(** The members of [base_transport] and [transport] (transport.h:73-84 and
    124-136) that the operations below read or write. [_probe] counts
    [request()] calls. *)
Record transport : Type := mk_transport {
  _in : input_stream;
  _fd : option connected_socket;
  _probe : nat;
  _memory : Z;
  _correlations : gmap Z response_handler;
  _correlation_idx : Z;
  _requests_queue : list (Z * netbuf);
  _seq : Z;
  _last_seq : Z }.

(** [base_transport::is_valid], transport.h:66: [_fd && !_in.eof()]. *)
Definition is_valid (t : transport) : bool :=
  (if _fd t is Some _ then true else false) && negb (eof (_in t)).

Definition set_in (i : input_stream) (t : transport) : transport :=
  mk_transport i (_fd t) (_probe t) (_memory t) (_correlations t)
    (_correlation_idx t) (_requests_queue t) (_seq t) (_last_seq t).

Definition set_probe (p : nat) (t : transport) : transport :=
  mk_transport (_in t) (_fd t) p (_memory t) (_correlations t)
    (_correlation_idx t) (_requests_queue t) (_seq t) (_last_seq t).

Definition set_memory (m : Z) (t : transport) : transport :=
  mk_transport (_in t) (_fd t) (_probe t) m (_correlations t)
    (_correlation_idx t) (_requests_queue t) (_seq t) (_last_seq t).

Definition set_correlations (c : gmap Z response_handler) (t : transport)
  : transport :=
  mk_transport (_in t) (_fd t) (_probe t) (_memory t) c
    (_correlation_idx t) (_requests_queue t) (_seq t) (_last_seq t).

Definition set_correlation_idx (i : Z) (t : transport) : transport :=
  mk_transport (_in t) (_fd t) (_probe t) (_memory t) (_correlations t)
    i (_requests_queue t) (_seq t) (_last_seq t).

Definition set_requests_queue (q : list (Z * netbuf)) (t : transport)
  : transport :=
  mk_transport (_in t) (_fd t) (_probe t) (_memory t) (_correlations t)
    (_correlation_idx t) q (_seq t) (_last_seq t).

Definition set_seq (s : Z) (t : transport) : transport :=
  mk_transport (_in t) (_fd t) (_probe t) (_memory t) (_correlations t)
    (_correlation_idx t) (_requests_queue t) s (_last_seq t).

Definition set_last_seq (s : Z) (t : transport) : transport :=
  mk_transport (_in t) (_fd t) (_probe t) (_memory t) (_correlations t)
    (_correlation_idx t) (_requests_queue t) (_seq t) s.

(** A transport as its constructor leaves it: counters at zero, no socket,
    the semaphore sized with the memory budget. *)
Definition fresh_transport (memory_budget_bytes : Z) : transport :=
  {| _in := {| unread := []; eof := false |};
     _fd := None;
     _probe := 0%nat;
     _memory := memory_budget_bytes;
     _correlations := ∅;
     _correlation_idx := 0;
     _requests_queue := [];
     _seq := 0;
     _last_seq := 0 |}.

(** *** [transport::send_typed], transport.h:168-198

    The body runs in three stretches separated by suspension points: the
    synchronous entry up to the start of the serialization
    ([send_typed_entry]), the call of [do_send] when the serialization
    future resolves, and the continuation on the result of [do_send]
    ([send_typed_reply]). *)

(** Lines 172-181: count the request, build the netbuf, take the sequence
    with [++_seq] on a 64-bit unsigned counter. *)
Definition send_typed_entry (method_id : Z) (opts : client_opts)
  (t : transport) : netbuf * Z * transport :=
  let t1 := set_probe (S (_probe t)) t in
  let b := set_min_compression_bytes (opt_min_compression_bytes opts)
             (set_compression (opt_compression opts) new_netbuf) in
  let raw_b := set_service_method_id method_id b in
  let seq := wrap 64 (_seq t1 + 1) in
  (raw_b, seq, set_seq seq t1).

(** What [send_typed_reply] calls, in order. *)
Inductive call : Set :=
| call_parse_type (h : header)
| call_signal_body_parse
| call_map_result (h : header).

Section send_typed_reply.
Context {Output exn : Type}.
(** [parse_type<Output>] of [rpc/parse_utils.h] reads the payload announced by
    the header from the input stream; it yields the decoded value or an
    exception, and the stream after the read. *)
Variable parse_type : input_stream -> header -> future exn Output * input_stream.
Variable st : status.codes.

(** Lines 187-197: the continuation that receives the result of [do_send]. *)
Definition send_typed_reply (sctx : result streaming_context) (t : transport)
  : future exn (result (client_context Output)) * transport * list call :=
  match sctx with
  | failure e => (ready (failure e), t, [])
  | ok sc =>
      let h := get_header sc in
      let '(o, in') := parse_type (_in t) h in
      match o with
      | ready o =>
          (ready (map_result st h o), set_in in' t,
           [call_parse_type h; call_signal_body_parse; call_map_result h])
      | exceptional e =>
          (exceptional e, set_in in' t, [call_parse_type h])
      end
  end.
End send_typed_reply.

(** *** The send path behind [send_typed] *)

(** The ordered queue is an [absl::btree_map] keyed by the sequence: entries
    are kept in ascending key order and [emplace] leaves an existing key
    alone. *)
Fixpoint emplace (k : Z) (b : netbuf) (q : list (Z * netbuf))
  : list (Z * netbuf) :=
  match q with
  | [] => [(k, b)]
  | (k', b') :: q' =>
      if decide (k < k') then (k, b) :: q
      else if decide (k = k') then q
      else (k', b') :: emplace k b q'
  end.

(** How the wait on the memory semaphore ended for a call. *)
Inductive admission : Set :=
| acquired
| timed_out.

(** What [do_send] has done when it returns to the caller: the call failed
    on the spot, or it is registered under a correlation id and its future
    is pending. *)
Inductive do_send_outcome : Set :=
| failed_now (e : errc.t)
| registered (id : Z).

Section send_path.
(** The ceiling of the memory semaphore ([memory_budget_bytes]). *)
Variable ceiling : Z.

(** Modelled from the spec: the units a call takes from the memory
    semaphore (section 4.4, Admission): min(payload_size, ceiling). *)
Definition admission_units (b : netbuf) : Z := Z.min (size_bytes b) ceiling.

(** Modelled from the spec: [transport::make_response_handler], declared at
    transport.h:121-122 and defined in transport.cc. Section 4.3, register:
    a new slot is inserted under a fresh correlation id, which is the next
    value of the 32-bit counter [_correlation_idx]. The design requires the
    id to be unique among the calls in flight and does not say what happens
    otherwise: there the model has no result. *)
Definition make_response_handler (slot : nat) (units : Z) (b : netbuf)
  (t : transport) : option (Z * netbuf * transport) :=
  let idx := wrap 32 (_correlation_idx t + 1) in
  match _correlations t !! idx with
  | Some _ => None
  | None =>
      let item := {| slot_id := slot; slot_units := units |} in
      Some (idx, set_correlation_id idx b,
            set_correlations (<[idx := item]> (_correlations t))
              (set_correlation_idx idx t))
  end.

(** Modelled from the spec: [transport::do_send], declared at
    transport.h:117-118 and defined in transport.cc. Sections 4.4 and 4.6:
    admission first; when the units are not obtained within the timeout the
    call fails with client_request_timeout and nothing else happens;
    otherwise a correlation id is allocated, the slot is registered and the
    netbuf is inserted in the ordered queue under the call's sequence. The
    semaphore grants only what it has: [acquired] with fewer units available
    than asked for is not a possible outcome. *)
Definition do_send (slot : nat) (seq : Z) (b : netbuf) (opts : client_opts)
  (adm : admission) (t : transport) : option (do_send_outcome * transport) :=
  match adm with
  | timed_out => Some (failed_now errc.client_request_timeout, t)
  | acquired =>
      let units := admission_units b in
      if decide (units <= _memory t) then
        match make_response_handler slot units b
                (set_memory (_memory t - units) t) with
        | Some (idx, b', t') =>
            Some (registered idx,
                  set_requests_queue (emplace seq b' (_requests_queue t')) t')
        | None => None
        end
      else None
  end.
End send_path.

(** Modelled from the spec: one turn of the dispatcher of
    [transport::dispatch_send] (declared at transport.h:119, defined in
    transport.cc). Section 4.4: the dispatcher pops the smallest sequence
    from the queue, writes it and records the send before it looks at the
    next entry. The queue is kept in ascending order, so the smallest
    sequence is its head; the record is the member [_last_seq] of
    transport.h:136. The result is the frame handed to the output stream, if
    there was one. *)
Definition dispatch_send (t : transport) : option (Z * netbuf) * transport :=
  match _requests_queue t with
  | (s, b) :: q => (Some (s, b), set_requests_queue q (set_last_seq s t))
  | [] => (None, t)
  end.

(** Modelled from the spec: section 4.3, complete and fail. The slot under
    the id is removed from the table and handed back for resolution, and its
    semaphore units are released; an absent id changes nothing. *)
Definition take_slot (id : Z) (t : transport)
  : option response_handler * transport :=
  match _correlations t !! id with
  | Some h =>
      (Some h,
       set_memory (_memory t + slot_units h)
         (set_correlations (delete id (_correlations t)) t))
  | None => (None, t)
  end.

(** Modelled from the spec: [transport::fail_outstanding_futures], declared
    at transport.h:114 and defined in transport.cc. Sections 4.3 (fail_all)
    and 4.6: every slot of the table is handed back for resolution with the
    error, the table and the ordered queue are cleared, the units are
    released. *)
Definition fail_outstanding_futures (t : transport)
  : list response_handler * transport :=
  let hs := (map_to_list (_correlations t)).*2 in
  (hs,
   set_memory (_memory t + foldr (fun h acc => slot_units h + acc) 0 hs)
     (set_requests_queue [] (set_correlations ∅ t))).

(** *** The transport under concurrent callers

    One transport runs on one thread; callers interleave at the suspension
    points. A run is a list of events, each an atomic stretch of code. *)

Inductive event : Set :=
| ev_send_typed (method_id : Z) (opts : client_opts) (payload : list Byte.byte)
| ev_do_send (seq : Z) (adm : admission)
| ev_dispatch
| ev_response (h : header)
| ev_timer (id : Z)
| ev_teardown (e : errc.t).

(** Why a completion slot was resolved. *)
Inductive cause : Set :=
| by_response
| by_timer
| by_teardown.

(** What a run makes observable: sequences handed out, calls refused before
    registration, frames written, completion slots resolved. *)
Inductive effect : Set :=
| entered (seq : Z)
| rejected (seq : Z) (e : errc.t)
| written (seq : Z) (b : netbuf)
| resolved (slot : nat) (c : cause) (r : result streaming_context).

(** The transport together with what the scheduler holds: the calls
    suspended in the serialization of their input (the continuation of
    transport.h:184 captures the sequence, the netbuf and the options), and
    the number of completion slots allocated so far. *)
Record world : Type := mk_world {
  obj : transport;
  in_to : list (Z * (netbuf * client_opts));
  slots_made : nat }.

Definition fresh_world (memory_budget_bytes : Z) : world :=
  {| obj := fresh_transport memory_budget_bytes; in_to := [];
     slots_made := 0 |}.

(** The first suspended call with the given sequence, and the others. *)
Fixpoint take_call (seq : Z) (l : list (Z * (netbuf * client_opts)))
  : option (netbuf * client_opts * list (Z * (netbuf * client_opts))) :=
  match l with
  | [] => None
  | (s, c) :: l' =>
      if decide (s = seq) then Some (c, l')
      else match take_call seq l' with
           | Some (c', r) => Some (c', (s, c) :: r)
           | None => None
           end
  end.

Section step.
Variable ceiling : Z.

(** One event. [None]: the event cannot happen in this state. *)
Definition step (ev : event) (w : world) : option (list effect * world) :=
  match ev with
  | ev_send_typed method_id opts payload =>
      let '(b, seq, t) := send_typed_entry method_id opts (obj w) in
      Some ([entered seq],
            mk_world t (in_to w ++ [(seq, (set_buffer payload b, opts))])
              (slots_made w))
  | ev_do_send seq adm =>
      match take_call seq (in_to w) with
      | Some (b, opts, rest) =>
          match do_send ceiling (slots_made w) seq b opts adm (obj w) with
          | Some (failed_now e, t) =>
              Some ([rejected seq e], mk_world t rest (slots_made w))
          | Some (registered _, t) =>
              Some ([], mk_world t rest (S (slots_made w)))
          | None => None
          end
      | None => None
      end
  | ev_dispatch =>
      match dispatch_send (obj w) with
      | (Some (s, b), t) =>
          Some ([written s b], mk_world t (in_to w) (slots_made w))
      | (None, t) => Some ([], mk_world t (in_to w) (slots_made w))
      end
  | ev_response h =>
      match take_slot (correlation_id h) (obj w) with
      | (Some s, t) =>
          Some ([resolved (slot_id s) by_response
                   (ok {| get_header := h |})],
                mk_world t (in_to w) (slots_made w))
      | (None, t) => Some ([], mk_world t (in_to w) (slots_made w))
      end
  | ev_timer id =>
      match take_slot id (obj w) with
      | (Some s, t) =>
          Some ([resolved (slot_id s) by_timer
                   (failure errc.client_request_timeout)],
                mk_world t (in_to w) (slots_made w))
      | (None, t) => Some ([], mk_world t (in_to w) (slots_made w))
      end
  | ev_teardown e =>
      let '(hs, t) := fail_outstanding_futures (obj w) in
      Some ((fun s => resolved (slot_id s) by_teardown (failure e)) <$> hs,
            mk_world t (in_to w) (slots_made w))
  end.

Fixpoint run (evs : list event) (w : world) : option (list effect * world) :=
  match evs with
  | [] => Some ([], w)
  | ev :: evs' =>
      match step ev w with
      | Some (out, w') =>
          match run evs' w' with
          | Some (outs, w'') => Some (out ++ outs, w'')
          | None => None
          end
      | None => None
      end
  end.
End step.



(** What the caller that owns completion slot [n] has been delivered. *)
Definition outcomes_of (n : nat) (effs : list effect)
  : list (cause * result streaming_context) :=
  omap (fun e => match e with
                 | resolved m c r => if decide (m = n) then Some (c, r) else None
                 | _ => None
                 end) effs.

(** A delivered outcome agrees with its cause: a response delivers the
    streaming context, the timer delivers client_request_timeout, teardown
    delivers an error. *)
Definition outcome_of_cause (o : cause * result streaming_context) : Prop :=
  match o with
  | (by_response, ok _) => True
  | (by_timer, failure e) => e = errc.client_request_timeout
  | (by_teardown, failure _) => True
  | _ => False
  end.

(** *** Statements about runs *)







(** What a run keeps true of the completion slots: a slot in the table has
    been allocated and has not been resolved, two entries of the table are
    two slots, every slot allocated so far is in the table or has been
    resolved exactly once, and no slot beyond those has been resolved. *)
Record resolved_once (effs : list effect) (w : world) : Prop := {
  ro_pending : ∀ id h, _correlations (obj w) !! id = Some h →
    (slot_id h < slots_made w)%nat ∧ outcomes_of (slot_id h) effs = [];
  ro_inj : ∀ id1 id2 h1 h2,
    _correlations (obj w) !! id1 = Some h1 →
    _correlations (obj w) !! id2 = Some h2 →
    slot_id h1 = slot_id h2 → id1 = id2;
  ro_made : ∀ n, (n < slots_made w)%nat →
    (∃ id h, _correlations (obj w) !! id = Some h ∧ slot_id h = n) ∨
    (∃ o, outcomes_of n effs = [o] ∧ outcome_of_cause o);
  ro_fresh : ∀ n, (slots_made w ≤ n)%nat → outcomes_of n effs = [] }.

(** A run with two callers whose serializations finish in the opposite
    order, a response for the second registration, and a teardown. *)
Definition two_callers : list event :=
  [ev_send_typed 7 (mk_client_opts 50 0 0) [];
   ev_send_typed 8 (mk_client_opts 50 0 0) [];
   ev_do_send 2 acquired; ev_dispatch;
   ev_do_send 1 acquired; ev_dispatch; ev_dispatch;
   ev_response (mk_header 0 0 0 0 0 2 0); ev_timer 2;
   ev_teardown errc.disconnected].



End rpc.

(** ** The client composition, transport.h:209-231

    [client<Protocol...>] derives from every protocol facade and holds the
    transport as its one data member. Its constructor is

      client(cfg) : Protocol(_transport)..., _transport(std::move(cfg)) {}

    A C++ constructor initialises the direct base classes in the order of
    the base-specifier list and then the data members in the order of their
    declaration; the order in which the initialisers are written does not
    change that (here it is the same order). *)
Module client.

(** The subobjects of a client object: the facade bases, by position in the
    pack, and the transport member. *)
Inductive subobject : Set :=
| base_facade (i : nat)
| member_transport.

(** One initialisation performed by the constructor: a facade base built
    from a reference to a subobject of the same client, or the transport
    member built from the configuration. *)
Inductive init (protocol cfg : Type) : Type :=
| init_facade (p : protocol) (borrowed : subobject)
| init_transport (c : cfg).
Arguments init_facade {protocol cfg} p borrowed.
Arguments init_transport {protocol cfg} c.

Section ctor.
Context {protocol cfg : Type}.

(** The initialisations of [client(cfg)], in the order they are carried
    out: the pack expansion [Protocol(_transport)...], then [_transport]. *)
Definition client_ctor (protocols : list protocol) (c : cfg)
  : list (init protocol cfg) :=
  ((fun p => init_facade p member_transport) <$> protocols)
    ++ [init_transport c].

Definition is_init_transport (x : init protocol cfg) : bool :=
  match x with init_transport _ => true | init_facade _ _ => false end.

(** Whether the transport member has been constructed once the first [n]
    initialisations are done. *)
Definition transport_constructed (n : nat) (l : list (init protocol cfg))
  : bool :=
  existsb is_init_transport (take n l).

(** The statement that every facade is built once the transport it borrows
    exists. *)
Definition facades_after_transport (protocols : list protocol) (c : cfg)
  : Prop :=
  ∀ i p r,
    client_ctor protocols c !! i = Some (init_facade p r) →
    transport_constructed i (client_ctor protocols c) = true.
End ctor.
End client.

(** ** [ssx::async_transform] and [ssx::parallel_transform], future-util.h *)
Module ssx.

(** What a run of a transform lets one observe: the call of the user
    function on the element at a position, and the moment the transform
    finds the future returned by that call resolved (its continuation
    runs, or [when_all_succeed] takes its result). *)
Inductive event (T U exn : Type) : Type :=
| invoked (i : nat) (x : T)
| settled (i : nat) (r : future exn U).
Arguments invoked {T U exn} i x.
Arguments settled {T U exn} i r.

Section transforms.
Context {T U St exn task : Type}.

(** The user function. [seastar::futurize_invoke(func, x)] runs [func] up to
    the point where it returns its future, which may still be pending:
    [task] is such a future, [settle] is the rest of the work that resolves
    it. Both act on the state [St] the user function works on; an exception
    thrown by the call itself is a task that settles to that exception. *)
Variable func : T → St → task * St.
Variable settle : task → St → future exn U * St.

(** The state of a run: the user's state and the events so far. *)
Record env : Type := mk_env {
  user : St;
  log : list (event T U exn) }.

Definition M (A : Type) : Type := env → A * env.
Definition ret {A} (a : A) : M A := fun e => (a, e).
Definition bind {A B} (c : M A) (k : A → M B) : M B :=
  fun e => let '(a, e') := c e in k a e'.
Notation "x <-- c ;; k" := (bind c (fun x => k))
  (at level 100, c at next level, right associativity).

(** [seastar::futurize_invoke(func, val)] on the element at position [i]. *)
Definition futurize_invoke (i : nat) (val : T) : M task :=
  fun e =>
    let '(tk, s) := func val (user e) in
    (tk, {| user := s; log := log e ++ [invoked i val] |}).

(** The future of position [i] resolves: its continuation may run. *)
Definition resolve (i : nat) (tk : task) : M (future exn U) :=
  fun e =>
    let '(r, s) := settle tk (user e) in
    (r, {| user := s; log := log e ++ [settled i r] |}).

(** The action of future-util.h:62-66:
    [futurize_invoke(func, val).then([&res](auto r) { res.push_back(r); })].
    The continuation runs only on a value; an exception passes through. *)
Definition push_back_action (i : nat) (val : T) (res : list U)
  : M (future exn (list U)) :=
  tk <-- futurize_invoke i val ;;
  r <-- resolve i tk ;;
  match r with
  | ready u => ret (ready (res ++ [u]))
  | exceptional ex => ret (exceptional ex)
  end.

(** [seastar::do_for_each(begin, end, action)]: the action runs on one
    element after the other, the next one when the future of the previous
    one has resolved; the first failed future ends the loop and is the
    result. [res] is the vector the loop shares with its continuations. *)
Fixpoint do_for_each (i : nat) (xs : list T) (res : list U)
  : M (future exn (list U)) :=
  match xs with
  | [] => ret (ready res)
  | val :: xs' =>
      r <-- push_back_action i val res ;;
      match r with
      | ready res' => do_for_each (S i) xs' res'
      | exceptional ex => ret (exceptional ex)
      end
  end.

(** [async_transform(begin, end, func)], future-util.h:47-69: the loop over
    an empty [res], then [return std::move(res)]. *)
Definition async_transform (xs : list T) : M (future exn (list U)) :=
  r <-- do_for_each 0 xs [] ;;
  match r with
  | ready res => ret (ready res)
  | exceptional ex => ret (exceptional ex)
  end.

(** [std::transform(begin, end, back_inserter(res), ...)] of
    future-util.h:133-139: one call of the user function per element, in
    order, each returned future appended to [res]. *)
Fixpoint transform (i : nat) (xs : list T) : M (list task) :=
  match xs with
  | [] => ret []
  | val :: xs' =>
      tk <-- futurize_invoke i val ;;
      tks <-- transform (S i) xs' ;;
      ret (tk :: tks)
  end.

(** The reactor resolves the pending futures in an order of its own, given
    here as a schedule of positions; a position is resolved once. *)
Fixpoint reactor (sched : list nat) (res : list task)
  (done : gmap nat (future exn U)) : M (gmap nat (future exn U)) :=
  match sched with
  | [] => ret done
  | i :: sched' =>
      match res !! i, done !! i with
      | Some tk, None =>
          r <-- resolve i tk ;;
          reactor sched' res (<[i := r]> done)
      | _, _ => reactor sched' res done
      end
  end.

(** The futures of positions [0 .. n-1] in that order, if all have
    resolved. *)
Fixpoint resolved_range (i n : nat) (done : gmap nat (future exn U))
  : option (list (future exn U)) :=
  match n with
  | O => Some []
  | S n' =>
      match done !! i, resolved_range (S i) n' done with
      | Some r, Some rs => Some (r :: rs)
      | _, _ => None
      end
  end.

Definition values (rs : list (future exn U)) : list U :=
  omap (fun r => match r with ready u => Some u | exceptional _ => None end) rs.

Definition failures (rs : list (future exn U)) : list exn :=
  omap (fun r => match r with exceptional ex => Some ex | ready _ => None end) rs.

(** Which of several exceptions [when_all_succeed] reports is its own
    choice (future-util.h:109-110: one of the exceptions is returned). *)
Variable pick : exn → list exn → exn.

(** [seastar::when_all_succeed(begin, end)]: resolves when every future of
    the range has; the values in the order of the range, or one of the
    exceptions. [None]: some future never resolves, and neither does the
    result. *)
Definition when_all_succeed (n : nat) (done : gmap nat (future exn U))
  : option (future exn (list U)) :=
  match resolved_range 0 n done with
  | Some rs =>
      match failures rs with
      | [] => Some (ready (values rs))
      | ex :: exs => Some (exceptional (pick ex exs))
      end
  | None => None
  end.

(** [parallel_transform(begin, end, func)], future-util.h:127-145. *)
Definition parallel_transform (sched : list nat) (xs : list T)
  : M (option (future exn (list U))) :=
  res <-- transform 0 xs ;;
  done <-- reactor sched res ∅ ;;
  ret (when_all_succeed (length res) done).

End transforms.

(** The events of a strictly sequential run from position [i] on: each
    element is invoked and settled before the next one is invoked. *)
Fixpoint sequential_log {T U exn} (i : nat) (xs : list T)
  (rs : list (future exn U)) : list (event T U exn) :=
  match xs, rs with
  | x :: xs', r :: rs' =>
      invoked i x :: settled i r :: sequential_log (S i) xs' rs'
  | _, _ => []
  end.

(** The calls of the user function on every element from position [i] on. *)
Fixpoint invocations {T U exn} (i : nat) (xs : list T)
  : list (event T U exn) :=
  match xs with
  | [] => []
  | x :: xs' => invoked i x :: invocations (S i) xs'
  end.

Definition is_settled {T U exn} (ev : event T U exn) : Prop :=
  match ev with settled _ _ => True | invoked _ _ => False end.

(** A user function on numbers for concrete runs: the call counts itself
    in the state and returns the element as the pending work; settling
    doubles the element, except that 3 fails. *)
Definition count_call (x : nat) (calls : nat) : nat * nat := (x, S calls).

Definition double_unless_three (tk : nat) (calls : nat)
  : future string nat * nat :=
  (if decide (tk = 3) then exceptional "three" else ready (2 * tk), calls).

Definition first_exception (ex : string) (exs : list string) : string := ex.

Definition no_events : env (T := nat) (U := nat) (St := nat) (exn := string) :=
  {| user := 0; log := [] |}.

End ssx.

(** ** [kafka::join_group_api::process], join_group_request.cc *)
Module kafka.

(** The fields of the decoded join-group request that the handler looks at;
    the other fields travel in [other_fields]. *)
Record join_group_request_data (rest : Type) : Type := mk_data {
  group_id : string;
  member_id : string;
  group_instance_id : option string;
  other_fields : rest }.
Arguments mk_data {rest} group_id member_id group_instance_id other_fields.
Arguments group_id {rest} _.
Arguments member_id {rest} _.
Arguments group_instance_id {rest} _.
Arguments other_fields {rest} _.

Record request_header : Set := mk_request_header {
  header_version : Z;
  header_client_id : option string }.

Record join_group_request (rest : Type) : Type := mk_join_group_request {
  data : join_group_request_data rest;
  version : Z;
  client_id : option string }.
Arguments mk_join_group_request {rest} data version client_id.
Arguments data {rest} _.
Arguments version {rest} _.
Arguments client_id {rest} _.

(** [request_context]: the request header, the reader over the request
    bytes, and the group manager behind [groups()]. *)
Record request_context (reader groups : Type) : Type := mk_request_context {
  header : request_header;
  reader_of : reader;
  groups_of : groups }.
Arguments mk_request_context {reader groups} header reader_of groups_of.
Arguments header {reader groups} _.
Arguments reader_of {reader groups} _.
Arguments groups_of {reader groups} _.

Section join_group.
Context {rest reader groups error_code join_group_response response_ptr exn
         : Type}.

(** [join_group_request_data::decode], generated code. *)
Variable data_decode : reader → Z → join_group_request_data rest.
(** [kafka::error_code::unsupported_version] of [kafka/errors.h]. *)
Variable unsupported_version : error_code.
(** The constructor [join_group_response(error_code)] of
    [join_group_request.h]. *)
Variable error_response : error_code → join_group_response.
(** [group_router::join_group]: the reply, or an exception, and the group
    manager afterwards. *)
Variable join_group :
  join_group_request rest → groups → future exn join_group_response * groups.
(** [request_context::respond]: the response handed back to the connection. *)
Variable respond :
  request_context reader groups → join_group_response → response_ptr.

(** [join_group_request::decode], join_group_request.cc:25-31, which the
    constructor [join_group_request(ctx)] runs. *)
Definition decode (ctx : request_context reader groups)
  : join_group_request rest :=
  {| data := data_decode (reader_of ctx) (header_version (header ctx));
     version := header_version (header ctx);
     client_id :=
       match header_client_id (header ctx) with
       | Some c => Some c
       | None => None
       end |}.

(** [join_group_api::process], join_group_request.cc:37-56. The result is
    the future handed back, the group manager afterwards, and the requests
    that were passed to [join_group]. *)
Definition process (ctx : request_context reader groups)
  : future exn response_ptr * groups * list (join_group_request rest) :=
  let request := decode ctx in
  if group_instance_id (data request) is Some _ then
    (ready (respond ctx (error_response unsupported_version)),
     groups_of ctx, [])
  else
    let '(reply, g) := join_group request (groups_of ctx) in
    match reply with
    | ready r => (ready (respond ctx r), g, [request])
    | exceptional ex => (exceptional ex, g, [request])
    end.
End join_group.

(** A small instance for concrete runs: the reader holds the decoded
    group_instance_id, a response is its error code, the group manager
    counts the joins and replies with error code 0. *)
Definition read_instance_id (r : option string) (v : Z)
  : join_group_request_data unit :=
  {| group_id := "g"; member_id := ""; group_instance_id := r;
     other_fields := () |}.

Definition counting_join (r : join_group_request unit) (joins : nat)
  : future string Z * nat :=
  (ready 0%Z, S joins).

Definition static_member_ctx : request_context (option string) nat :=
  {| header := {| header_version := 5; header_client_id := Some "c" |};
     reader_of := Some "instance-1";
     groups_of := 0 |}.

End kafka.

(** ** One call of [send_typed] from entry to result, and calls in a row *)
Module calls.
Import rpc.
Local Open Scope Z_scope.

(** Callers that enter [send_typed] one after the other, nothing else
    running on the transport in between: transport.h:172-181 once per
    caller. The result lists, per caller, the netbuf built and the sequence
    taken. *)
Fixpoint send_typed_entries (cs : list (Z * client_opts)) (t : transport)
  : list (netbuf * Z) * transport :=
  match cs with
  | [] => ([], t)
  | (method_id, opts) :: cs' =>
      let '(b, seq, t1) := send_typed_entry method_id opts t in
      let '(rest, t2) := send_typed_entries cs' t1 in
      ((b, seq) :: rest, t2)
  end.

Section send_typed.
Context {Input Output exn : Type}.
(** [reflection::async_adl<Input>{}.to(target_buffer, r)]: the serialized
    bytes that end up in the buffer of the netbuf, or an exception. *)
Variable adl_to : Input → future exn (list Byte.byte).
(** [transport::do_send] as [send_typed] sees it: it is given the sequence,
    the netbuf and the options, and resolves with a streaming context or an
    error code. *)
Variable do_send :
  Z → netbuf → client_opts → transport → result streaming_context * transport.
Variable parse_type : input_stream → header → future exn Output * input_stream.
Variable st : status.codes.

(** [transport::send_typed], transport.h:168-198, for a caller that is alone
    on the transport: entry, serialization, [do_send], and the continuation
    on its result. A failed serialization future skips both [then]
    continuations. Besides the future and the transport, the result holds
    what [do_send] was called with, if it was called, and the calls of the
    last continuation. *)
Definition send_typed (r : Input) (method_id : Z) (opts : client_opts)
  (t : transport)
  : future exn (result (client_context Output)) * transport
    * option (Z * netbuf * client_opts) * list call :=
  let '(b, seq, t1) := send_typed_entry method_id opts t in
  match adl_to r with
  | exceptional ex => (exceptional ex, t1, None, [])
  | ready bytes =>
      let b' := set_buffer bytes b in
      let '(sctx, t2) := do_send seq b' opts t1 in
      let '(out, t3, cs) := send_typed_reply parse_type st sctx t2 in
      (out, t3, Some (seq, b', opts), cs)
  end.
End send_typed.
End calls.

(** ** [kafka::alter_configs_api::process], alter_configs_request.cc *)
Module alter_configs.
Import kafka.

Section process.
Context {reader groups alter_configs_request alter_configs_response
         response_ptr exn : Type}.

(** [alter_configs_request::decode], generated code: the decoded request,
    or the exception it throws on bytes it cannot read. *)
Variable request_decode : reader → Z → exn + alter_configs_request.
(** The default-constructed [alter_configs_response()]. *)
Variable empty_response : alter_configs_response.
Variable respond :
  request_context reader groups → alter_configs_response → response_ptr.

(** [alter_configs_api::process], alter_configs_request.cc:27-39. The
    request is decoded in the body of the function, so an exception of the
    decoder leaves the function before anything is logged; otherwise the
    request is traced and the response is built from nothing but the
    context. The result: the exception or the response, and the requests
    that were traced. *)
Definition process (ctx : request_context reader groups)
  : (exn + response_ptr) * list alter_configs_request :=
  match request_decode (reader_of ctx) (header_version (header ctx)) with
  | inl ex => (inl ex, [])
  | inr request => (inr (respond ctx empty_response), [request])
  end.
End process.
End alter_configs.

(** ** Small instances for concrete runs *)
Module samples.
Import rpc.
Local Open Scope Z_scope.

(** A serializer that throws, and one that gives one byte per input. *)
Definition throwing_to (r : nat) : future string (list Byte.byte) :=
  exceptional "cannot serialize".

Definition one_byte_to (r : nat) : future string (list Byte.byte) :=
  ready [Byte.x2a].

(** A [do_send] that finds the transport invalid. *)
Definition disconnected_send (seq : Z) (b : netbuf) (opts : client_opts)
  (t : transport) : result streaming_context * transport :=
  (failure errc.disconnected, t).

(** A [parse_type] that reads nothing and decodes 0. *)
Definition parse_zero (i : input_stream) (h : header)
  : future string nat * input_stream :=
  (ready 0%nat, i).

(** A user function for the transforms whose futures all hold the double
    of the element. *)
Definition always_double (tk : nat) (calls : nat) : future string nat * nat :=
  (ready (2 * tk)%nat, calls).

(** A join-group request of a member without a group_instance_id. *)
Definition dynamic_member_ctx : kafka.request_context (option string) nat :=
  {| kafka.header :=
       {| kafka.header_version := 5; kafka.header_client_id := None |};
     kafka.reader_of := None;
     kafka.groups_of := 0%nat |}.

End samples.

(** * Properties *)

Module RpcProps.
Import rpc.
Local Open Scope Z_scope.

(** ** The status map *)

(** C2. [map_result] follows the status table: for every header and every
    payload, status success gives a client_context that carries the header
    and the payload, request_timeout gives client_request_timeout,
    server_error gives service_error, method_not_found gives
    method_not_found, and any other value gives service_error. The
    enumerators of [status] are taken to be pairwise different. *)
Theorem map_result_status_table (st : status.codes) (T : Type)
  (h : header) (d : T) :
  status.distinct st →
  (meta h = status.success st →
     map_result st h d = ok {| hdr := h; data := d |}) ∧
  (meta h = status.request_timeout st →
     map_result st h d = failure errc.client_request_timeout) ∧
  (meta h = status.server_error st →
     map_result st h d = failure errc.service_error) ∧
  (meta h = status.method_not_found st →
     map_result st h d = failure errc.method_not_found) ∧
  (meta h ∉ [status.success st; status.method_not_found st;
             status.request_timeout st; status.server_error st] →
     map_result st h d = failure errc.service_error).
Proof.
  unfold status.distinct. intros Hd.
  apply NoDup_cons in Hd as [H1 Hd]. apply NoDup_cons in Hd as [H2 Hd].
  apply NoDup_cons in Hd as [H3 _].
  rewrite !elem_of_cons in H1, H2, H3.
  unfold map_result; cbv zeta.
  repeat split; intros Hm; repeat case_decide; try reflexivity;
    try (exfalso; rewrite ?elem_of_cons in *; intuition congruence).
Qed.

Lemma wire_codes_distinct : status.distinct status.wire_codes.
Proof.
  unfold status.distinct, status.wire_codes; cbn.
  repeat (apply NoDup_cons; split; [rewrite ?elem_of_cons, elem_of_nil; lia|]).
  apply NoDup_nil_2.
Qed.

Lemma map_result_status_table_witness :
  map_result status.wire_codes (mk_header 0 0 0 0 2 9 0) [5; 6]
  = failure errc.client_request_timeout.
Proof.
  apply (map_result_status_table status.wire_codes (list Z)
           (mk_header 0 0 0 0 2 9 0) [5; 6] wire_codes_distinct).
  reflexivity.
Defined.

(** The success branch of [send_typed] hands the parsed payload and the
    header of the streaming context to [map_result]. *)
Lemma send_typed_reply_ok {Output exn : Type}
  (parse_type : input_stream → header → future exn Output * input_stream)
  (st : status.codes) (sc : streaming_context) (t : transport) o in' :
  parse_type (_in t) (get_header sc) = (ready o, in') →
  (send_typed_reply parse_type st (ok sc) t).1.1
  = ready (map_result st (get_header sc) o).
Proof. intros H. unfold send_typed_reply. rewrite H. reflexivity. Qed.

(** ** Validity *)

(** C8. [is_valid] answers true exactly when the transport holds a socket
    and its input stream is not at end of file, whatever the state of the
    transport. *)
Theorem is_valid_iff (t : transport) :
  is_valid t = true ↔ is_Some (_fd t) ∧ eof (_in t) = false.
Proof.
  unfold is_valid. destruct (_fd t) as [fd|], (eof (_in t)); cbn; split;
    try discriminate; try (intros [[? ?] ?]; discriminate).
  - intros _. split; [eexists; reflexivity | reflexivity].
  - intros _. reflexivity.
Qed.

(** ** The error branch of [send_typed] *)

(** C9. When [do_send] resolves with an error, [send_typed] resolves with
    that error at once: the transport, and with it the input stream, is
    left as it was, neither [parse_type] nor [map_result] is called, and
    the outcome does not depend on what [parse_type] would do. *)
Theorem send_typed_reply_error {Output exn : Type}
  (parse_type parse_type' :
     input_stream → header → future exn Output * input_stream)
  (st : status.codes) (e : errc.t) (t : transport) :
  send_typed_reply parse_type st (failure e) t = (ready (failure e), t, []) ∧
  _in (send_typed_reply parse_type st (failure e) t).1.2 = _in t ∧
  send_typed_reply parse_type st (failure e) t
  = send_typed_reply parse_type' st (failure e) t.
Proof. repeat split. Qed.

(** A successful [do_send] does lead to a read: the success branch starts
    with the call of [parse_type] that the error branch leaves out. *)
Lemma send_typed_reply_ok_calls {Output exn : Type}
  (parse_type : input_stream → header → future exn Output * input_stream)
  (st : status.codes) (sc : streaming_context) (t : transport) :
  ∃ rest, (send_typed_reply parse_type st (ok sc) t).2
          = call_parse_type (get_header sc) :: rest.
Proof.
  unfold send_typed_reply.
  destruct (parse_type (_in t) (get_header sc)) as [[o|ex] in'];
    eexists; reflexivity.
Qed.

(** ** Admission *)

(** C4. [do_send] takes min(payload_size, ceiling) units of the memory
    semaphore before anything else, and only then are a correlation id
    allocated and the netbuf enqueued; when the units are not obtained
    within the timeout the call fails with client_request_timeout and the
    transport is unchanged: the correlation table and the correlation
    counter are as before, and nothing was enqueued. *)
Theorem do_send_admission (ceiling : Z) (slot : nat) (seq : Z) (b : netbuf)
  (opts : client_opts) (t : transport) :
  (∃ t', do_send ceiling slot seq b opts timed_out t
         = Some (failed_now errc.client_request_timeout, t') ∧
         _correlations t' = _correlations t ∧
         _correlation_idx t' = _correlation_idx t ∧
         _requests_queue t' = _requests_queue t ∧
         _memory t' = _memory t) ∧
  (∀ out t', do_send ceiling slot seq b opts acquired t = Some (out, t') →
     Z.min (size_bytes b) ceiling ≤ _memory t ∧
     _memory t' = _memory t - Z.min (size_bytes b) ceiling ∧
     ∃ id, out = registered id ∧
           id = wrap 32 (_correlation_idx t + 1) ∧
           _correlation_idx t' = id ∧
           _correlations t !! id = None ∧
           _correlations t' !! id
           = Some {| slot_id := slot;
                     slot_units := Z.min (size_bytes b) ceiling |} ∧
           _requests_queue t'
           = emplace seq (set_correlation_id id b) (_requests_queue t)) ∧
  (Z.min (size_bytes b) ceiling ≤ _memory t →
   _correlations t !! wrap 32 (_correlation_idx t + 1) = None →
   is_Some (do_send ceiling slot seq b opts acquired t)).
Proof.
  split; [|split].
  - exists t. repeat split.
  - intros out t'. unfold do_send, admission_units.
    case_decide as Hu; [|discriminate].
    unfold make_response_handler; cbn.
    destruct (_correlations t !! wrap 32 (_correlation_idx t + 1)) eqn:Hl;
      [discriminate|].
    intros [= <- <-]; cbn. repeat split; try assumption.
    eexists; repeat split; try assumption.
    apply lookup_insert_eq.
  - intros Hu Hfree. unfold do_send, admission_units.
    rewrite decide_True by done. unfold make_response_handler; cbn.
    rewrite Hfree. by eexists.
Qed.

(** A call of 3 bytes on a transport with a budget of 2: it is admitted for
    2 units, or, when the wait times out, refused without a trace in the
    transport. *)
Example do_send_over_budget :
  let b := set_buffer [Byte.x61; Byte.x62; Byte.x63] new_netbuf in
  let t := fresh_transport 2 in
  (∃ t', do_send 2 0 1 b (mk_client_opts 50 0 0) acquired t
         = Some (registered 1, t') ∧ _memory t' = 0) ∧
  do_send 2 0 1 b (mk_client_opts 50 0 0) timed_out t
  = Some (failed_now errc.client_request_timeout, t).
Proof. split; [eexists; split; reflexivity | reflexivity]. Qed.

(** At the level of a run: a call whose admission timed out is reported as
    refused with client_request_timeout and allocates no completion slot. *)
Lemma step_do_send_timed_out (ceiling : Z) (seq : Z) (w : world) out w' :
  step ceiling (ev_do_send seq timed_out) w = Some (out, w') →
  out = [rejected seq errc.client_request_timeout] ∧
  slots_made w' = slots_made w ∧
  _correlations (obj w') = _correlations (obj w) ∧
  _correlation_idx (obj w') = _correlation_idx (obj w).
Proof.
  unfold step. destruct (take_call seq (in_to w)) as [[[b o] r]|];
    [|discriminate].
  cbn. intros [= <- <-]. repeat split.
Qed.

(** ** Order of the frames on the wire *)





(** *** The ordered queue and the suspended calls *)









(** *** Two frames that wait in the queue together *)









Lemma wrap_wrap_add a b : wrap 64 (wrap 64 a + b) = wrap 64 (a + b).
Proof. unfold wrap. apply Zplus_mod_idemp_l. Qed.






(** ** Completion slots *)

Lemma outcomes_of_app n a b :
  outcomes_of n (a ++ b) = outcomes_of n a ++ outcomes_of n b.
Proof. apply omap_app. Qed.

Lemma outcomes_of_cons n x l :
  outcomes_of n (x :: l) = outcomes_of n [x] ++ outcomes_of n l.
Proof. apply (outcomes_of_app n [x] l). Qed.

Lemma outcomes_of_resolved_eq n c r : outcomes_of n [resolved n c r] = [(c, r)].
Proof. unfold outcomes_of; cbn. by rewrite decide_True. Qed.

Lemma outcomes_of_resolved_ne n m c r :
  m ≠ n → outcomes_of n [resolved m c r] = [].
Proof. intros. unfold outcomes_of; cbn. by rewrite decide_False. Qed.

Lemma resolved_once_fresh budget : resolved_once [] (fresh_world budget).
Proof.
  split; cbn; try done.
  intros n Hn. lia.
Qed.

(** Events that leave the table and the slot counter alone and resolve
    nothing keep the invariant. *)
Lemma resolved_once_silent effs out w w' :
  resolved_once effs w →
  (∀ n, outcomes_of n out = []) →
  _correlations (obj w') = _correlations (obj w) →
  slots_made w' = slots_made w →
  resolved_once (effs ++ out) w'.
Proof.
  intros [Hp Hj Hm Hf] Hout Ht Hs.
  split; rewrite ?Ht, ?Hs; intros; rewrite ?outcomes_of_app, ?Hout, ?app_nil_r; eauto.
Qed.

Lemma resolved_once_take effs w id h t c r :
  resolved_once effs w →
  take_slot id (obj w) = (Some h, t) →
  outcome_of_cause (c, r) →
  resolved_once (effs ++ [resolved (slot_id h) c r])
    (mk_world t (in_to w) (slots_made w)).
Proof.
  intros [Hp Hj Hm Hf]. unfold take_slot.
  destruct (_correlations (obj w) !! id) as [h'|] eqn:Hl; [|discriminate].
  intros [= -> <-] Hc. cbn.
  assert (∀ id' h', delete id (_correlations (obj w)) !! id' = Some h' →
            _correlations (obj w) !! id' = Some h' ∧ slot_id h' ≠ slot_id h) as Hdel.
  { intros id' h'. rewrite lookup_delete_Some. intros [Hne Hl']. split; [done|].
    intros Heq. apply Hne. symmetry. by eapply Hj. }
  split; cbn.
  - intros id' h' Hl'. apply Hdel in Hl' as [Hl' Hne].
    rewrite outcomes_of_app, outcomes_of_resolved_ne, app_nil_r by done. by eapply Hp.
  - intros id1 id2 h1 h2 H1 H2. apply Hdel in H1 as [H1 _]. apply Hdel in H2 as [H2 _].
    by eapply Hj.
  - intros n Hn. rewrite outcomes_of_app.
    destruct (decide (n = slot_id h)) as [->|Hne].
    + right. exists (c, r). destruct (Hp _ _ Hl) as [_ ->].
      by rewrite outcomes_of_resolved_eq.
    + rewrite outcomes_of_resolved_ne, app_nil_r by done.
      destruct (Hm n Hn) as [(id' & h' & Hl' & Hs)|Hr]; [left|by right].
      exists id', h'. split; [|done]. rewrite lookup_delete_Some. split; [|done].
      intros ->. rewrite Hl in Hl'. injection Hl' as ->. done.
  - intros n Hn. rewrite outcomes_of_app, (Hf n Hn).
    rewrite outcomes_of_resolved_ne; [done|].
    destruct (Hp _ _ Hl) as [Hlt _]. lia.
Qed.

Lemma outcomes_of_teardown e n (hs : list response_handler) :
  NoDup (slot_id <$> hs) →
  outcomes_of n ((λ s, resolved (slot_id s) by_teardown (failure e)) <$> hs)
  = if decide (n ∈ slot_id <$> hs) then [(by_teardown, failure e)] else [].
Proof.
  induction hs as [|h hs IH]; [done|].
  rewrite !fmap_cons, NoDup_cons. intros [Hnin Hnd].
  rewrite outcomes_of_cons, (IH Hnd).
  destruct (decide (n = slot_id h)) as [->|Hne].
  - rewrite outcomes_of_resolved_eq.
    rewrite (decide_True (P := slot_id h ∈ _ :: _)) by (by left).
    by rewrite decide_False.
  - rewrite outcomes_of_resolved_ne by done.
    destruct (decide (n ∈ slot_id <$> hs)) as [Hin|Hout].
    + rewrite decide_True; [done|by right].
    + rewrite decide_False; [done|].
      rewrite elem_of_cons. by intros [?|?].
Qed.

Lemma table_slots_NoDup effs w :
  resolved_once effs w →
  NoDup (slot_id <$> (map_to_list (_correlations (obj w))).*2).
Proof.
  intros [_ Hj _ _]. rewrite <- list_fmap_compose.
  apply NoDup_fmap_2_strong; [|apply NoDup_map_to_list].
  intros [id1 h1] [id2 h2] H1%elem_of_map_to_list H2%elem_of_map_to_list Heq.
  cbn in Heq. assert (id1 = id2) as -> by by eapply Hj.
  rewrite H1 in H2. by injection H2 as ->.
Qed.

Lemma table_slot_elem (m : gmap Z response_handler) n :
  n ∈ slot_id <$> (map_to_list m).*2 ↔ ∃ id h, m !! id = Some h ∧ slot_id h = n.
Proof.
  rewrite list_elem_of_fmap. split.
  - intros (h & -> & Hin). apply list_elem_of_fmap in Hin as ([id h'] & -> & Hin).
    apply elem_of_map_to_list in Hin. by exists id, h'.
  - intros (id & h & Hl & <-). exists h. split; [done|].
    apply list_elem_of_fmap. exists (id, h). split; [done|].
    by apply elem_of_map_to_list.
Qed.

Lemma resolved_once_teardown effs w e hs t :
  resolved_once effs w →
  fail_outstanding_futures (obj w) = (hs, t) →
  resolved_once
    (effs ++ ((λ s, resolved (slot_id s) by_teardown (failure e)) <$> hs))
    (mk_world t (in_to w) (slots_made w)).
Proof.
  intros Hinv. pose proof (table_slots_NoDup _ _ Hinv) as Hnd.
  destruct Hinv as [Hp Hj Hm Hf].
  unfold fail_outstanding_futures. intros [= <- <-].
  split; cbn; try done.
  - intros n Hn. right. rewrite outcomes_of_app, outcomes_of_teardown by done.
    destruct (Hm n Hn) as [Hin|(o & Ho & Hc)].
    + rewrite decide_True by by apply table_slot_elem.
      destruct Hin as (id & h & Hl & <-). destruct (Hp _ _ Hl) as [_ ->].
      by exists (by_teardown, failure e).
    + rewrite decide_False.
      * exists o. by rewrite app_nil_r.
      * intros (id & h & Hl & <-)%table_slot_elem.
        destruct (Hp _ _ Hl) as [_ Hnone]. rewrite Hnone in Ho. discriminate.
  - intros n Hn. rewrite outcomes_of_app, outcomes_of_teardown, (Hf n Hn) by done.
    rewrite decide_False; [done|].
    intros (id & h & Hl & <-)%table_slot_elem. destruct (Hp _ _ Hl). lia.
Qed.

Lemma step_resolved_once ceiling ev effs w out w' :
  step ceiling ev w = Some (out, w') →
  resolved_once effs w →
  resolved_once (effs ++ out) w'.
Proof.
  intros Hstep Hinv.
  destruct ev as [m o p|seq adm| |h|id|e]; cbn in Hstep.
  - injection Hstep as <- <-. by apply (resolved_once_silent _ _ w).
  - destruct (take_call seq (in_to w)) as [[[b o] r]|]; [|discriminate].
    destruct adm; cbn in Hstep.
    + unfold admission_units in Hstep. case_decide; [|discriminate].
      unfold make_response_handler in Hstep. cbn in Hstep.
      destruct (_correlations (obj w) !! wrap 32 (_correlation_idx (obj w) + 1))
        eqn:Hnew; [discriminate|].
      injection Hstep as <- <-. rewrite app_nil_r.
      destruct Hinv as [Hp Hj Hm Hf].
      split; cbn.
      * intros id h. rewrite lookup_insert_Some.
        intros [[<- <-]|[Hne Hl]]; cbn.
        -- split; [lia|]. by apply Hf.
        -- destruct (Hp _ _ Hl). split; [lia|done].
      * intros id1 id2 h1 h2. rewrite !lookup_insert_Some.
        intros [[<- <-]|[Hne1 Hl1]] [[<- <-]|[Hne2 Hl2]]; cbn; try done.
        -- intros Heq. destruct (Hp _ _ Hl2). lia.
        -- intros Heq. destruct (Hp _ _ Hl1). lia.
        -- by eapply Hj.
      * intros n Hn. destruct (decide (n = slots_made w)) as [->|Hne].
        -- left. eexists _, _. split; [apply lookup_insert_eq|done].
        -- destruct (Hm n) as [(id & h & Hl & Hs)|Hr]; [lia| |by right].
           left. exists id, h. split; [|done].
           rewrite lookup_insert_ne; [done|]. intros <-. by rewrite Hnew in Hl.
      * intros n Hn. apply Hf. lia.
    + injection Hstep as <- <-. by apply (resolved_once_silent _ _ w).
  - assert (_correlations (dispatch_send (obj w)).2 = _correlations (obj w))
      as Hsame.
    { unfold dispatch_send.
      by destruct (_requests_queue (obj w)) as [|[s' b'] q]. }
    destruct (dispatch_send (obj w)) as [[[s b]|] t];
      injection Hstep as <- <-; by apply (resolved_once_silent _ _ w).
  - destruct (take_slot (correlation_id h) (obj w)) as [[s|] t] eqn:Ht;
      injection Hstep as <- <-.
    + by eapply resolved_once_take.
    + apply (resolved_once_silent _ _ w); try done.
      unfold take_slot in Ht. destruct (_ !! _); [done|]. by injection Ht as <-.
  - destruct (take_slot id (obj w)) as [[s|] t] eqn:Ht;
      injection Hstep as <- <-.
    + by eapply resolved_once_take.
    + apply (resolved_once_silent _ _ w); try done.
      unfold take_slot in Ht. destruct (_ !! _); [done|]. by injection Ht as <-.
  - destruct (fail_outstanding_futures (obj w)) as [hs t] eqn:Hf.
    injection Hstep as <- <-. by apply resolved_once_teardown.
Qed.

Lemma run_resolved_once ceiling evs effs w outs w' :
  run ceiling evs w = Some (outs, w') →
  resolved_once effs w →
  resolved_once (effs ++ outs) w'.
Proof.
  revert effs w outs. induction evs as [|ev evs IH]; intros effs w outs; cbn.
  - intros [= <- <-] Hi. by rewrite app_nil_r.
  - destruct (step ceiling ev w) as [[out w1]|] eqn:Hstep; [|discriminate].
    destruct (run ceiling evs w1) as [[outs' w2]|] eqn:Hrun; [|discriminate].
    intros [= <- <-] Hi. rewrite app_assoc.
    apply (IH _ _ _ Hrun). by eapply step_resolved_once.
Qed.

(** C3. In every run of a fresh transport, every completion slot
    registered in the correlation table is either still in the table and
    unresolved, or out of the table and resolved exactly once, by a response
    (which delivers the streaming context), by its timer (which delivers
    client_request_timeout) or by teardown (which delivers the error); the
    table holds no resolved slot; and once the outstanding futures have been
    failed the table is empty and every registered slot has exactly one
    outcome. *)
Theorem completion_exactly_once (ceiling budget : Z) (evs : list event)
  (effs : list effect) (w : world) :
  run ceiling evs (fresh_world budget) = Some (effs, w) →
  (∀ n, (n < slots_made w)%nat →
     ((∃ id h, _correlations (obj w) !! id = Some h ∧ slot_id h = n) ∧
      outcomes_of n effs = []) ∨
     ((∀ id h, _correlations (obj w) !! id = Some h → slot_id h ≠ n) ∧
      ∃ o, outcomes_of n effs = [o] ∧ outcome_of_cause o)) ∧
  (∀ id h, _correlations (obj w) !! id = Some h →
     (slot_id h < slots_made w)%nat ∧ outcomes_of (slot_id h) effs = []) ∧
  (∀ e out w', step ceiling (ev_teardown e) w = Some (out, w') →
     _correlations (obj w') = ∅ ∧
     ∀ n, (n < slots_made w)%nat →
       ∃ o, outcomes_of n (effs ++ out) = [o] ∧ outcome_of_cause o).
Proof.
  intros Hrun.
  pose proof (run_resolved_once _ _ [] _ _ _ Hrun (resolved_once_fresh budget))
    as Hinv. change ([] ++ effs) with effs in Hinv.
  split; [|split].
  - intros n Hn. destruct Hinv as [Hp Hj Hm Hf].
    destruct (Hm n Hn) as [(id & h & Hl & <-)|(o & Ho & Hc)].
    + left. split; [by exists id, h|]. by destruct (Hp _ _ Hl).
    + right. split; [|by exists o].
      intros id h Hl <-. destruct (Hp _ _ Hl) as [_ Hnone].
      rewrite Hnone in Ho. discriminate.
  - by destruct Hinv.
  - intros e out w' Hstep.
    pose proof (step_resolved_once _ _ _ _ _ _ Hstep Hinv) as [Hp' _ Hm' _].
    cbn in Hstep. injection Hstep as <- <-. cbn in *.
    split; [done|]. intros n Hn.
    destruct (Hm' n Hn) as [(id & h & Hl & _)|Hr]; [|done].
    by rewrite lookup_empty in Hl.
Qed.

Lemma completion_exactly_once_witness :
  ∃ effs w,
    run 100 two_callers (fresh_world 100) = Some (effs, w) ∧
    slots_made w = 2%nat ∧
    outcomes_of 0 effs = [(by_teardown, failure errc.disconnected)] ∧
    outcomes_of 1 effs
    = [(by_response, ok {| get_header := mk_header 0 0 0 0 0 2 0 |})] ∧
    (∀ id h, _correlations (obj w) !! id = Some h →
       (slot_id h < slots_made w)%nat ∧ outcomes_of (slot_id h) effs = []).
Proof.
  destruct (run 100 two_callers (fresh_world 100)) as [[effs w]|] eqn:Hrun;
    [|vm_compute in Hrun; discriminate].
  exists effs, w. split; [reflexivity|].
  split; [vm_compute in Hrun; by injection Hrun as _ <-|].
  split; [vm_compute in Hrun; by injection Hrun as <- _|].
  split; [vm_compute in Hrun; by injection Hrun as <- _|].
  apply (completion_exactly_once 100 100 two_callers effs w Hrun).
Defined.

End RpcProps.

Module ClientProps.
Import client.

Section ctor.
Context {protocol cfg : Type}.

Lemma facades_no_transport (protocols : list protocol) :
  existsb (is_init_transport (cfg := cfg))
    ((λ p, init_facade p member_transport) <$> protocols) = false.
Proof. induction protocols as [|p ps IH]; [done|]. exact IH. Qed.

Lemma existsb_take_false {A} (f : A → bool) (l : list A) n :
  existsb f l = false → existsb f (take n l) = false.
Proof.
  revert n. induction l as [|a l IH]; intros [|n]; cbn; try done.
  intros [Ha Hl]%orb_false_iff. rewrite Ha. by apply IH.
Qed.

(** C5, as amended. Every facade is constructed with a reference to the
    transport member of the client it belongs to, and there is one
    transport, built from the configuration; the facades, being base
    classes, are all constructed before that member: when a facade is
    constructed the transport it borrows has not been constructed yet. *)
Theorem client_ctor_facades_before_transport (protocols : list protocol)
  (c : cfg) (i : nat) (p : protocol) (r : subobject) :
  client_ctor protocols c !! i = Some (init_facade p r) →
  r = member_transport ∧
  protocols !! i = Some p ∧
  transport_constructed i (client_ctor protocols c) = false ∧
  (∀ j c', client_ctor protocols c !! j = Some (init_transport c') ↔
           j = length protocols ∧ c' = c).
Proof.
  unfold client_ctor, transport_constructed. intros Hi.
  assert (i < length protocols) as Hlt.
  { destruct (decide (i < length protocols)) as [|Hge]; [done|].
    rewrite lookup_app_r in Hi by (rewrite length_fmap; lia).
    rewrite length_fmap in Hi.
    destruct (i - length protocols) as [|k]; [done|]. by destruct k. }
  rewrite lookup_app_l in Hi by (by rewrite length_fmap).
  rewrite list_lookup_fmap in Hi.
  destruct (protocols !! i) as [p'|] eqn:Hp; [|done].
  injection Hi as <- <-. split; [done|]. split; [done|]. split.
  - rewrite take_app_le by (rewrite length_fmap; lia).
    apply existsb_take_false, facades_no_transport.
  - intros j c'. split.
    + intros Hj. destruct (decide (j < length protocols)) as [Hjl|Hjg].
      * rewrite lookup_app_l in Hj by (by rewrite length_fmap).
        rewrite list_lookup_fmap in Hj. by destruct (protocols !! j).
      * rewrite lookup_app_r in Hj by (rewrite length_fmap; lia).
        rewrite length_fmap in Hj.
        destruct (j - length protocols) as [|k] eqn:Hk; [|by destruct k].
        injection Hj as <-. split; [lia|done].
    + intros [-> ->]. rewrite lookup_app_r by (by rewrite length_fmap).
      by rewrite length_fmap, Nat.sub_diag.
Qed.
End ctor.

Lemma client_ctor_facades_before_transport_witness :
  transport_constructed 1 (client_ctor ["raft"; "cluster"] 9092%Z) = false.
Proof.
  apply (client_ctor_facades_before_transport ["raft"; "cluster"] 9092%Z 1
           "cluster" member_transport).
  reflexivity.
Defined.

(** C5, as stated, fails: the first facade of a client is constructed when
    the transport member has not been constructed. *)
Lemma facade_constructed_before_transport :
  ¬ facades_after_transport ["raft"] 9092%Z.
Proof.
  intros H. specialize (H 0 "raft" member_transport eq_refl). discriminate.
Qed.

End ClientProps.

Module SsxProps.
Import ssx.

Section transforms.
Context {T U St exn task : Type}.
Variable func : T → St → task * St.
Variable settle : task → St → future exn U * St.
Variable pick : exn → list exn → exn.

(** ** [async_transform] *)

Lemma sequential_log_nil_r i (xs : list T) :
  sequential_log (U := U) (exn := exn) i xs [] = [].
Proof. by destruct xs. Qed.

(** The loop of [async_transform]: what it returns and what it logs. *)
Lemma do_for_each_spec (xs : list T) (i : nat) (res : list U) (e : env) :
  ∃ us : list U,
    match (do_for_each func settle i xs res e).1 with
    | ready res' =>
        res' = res ++ us ∧ length us = length xs ∧
        log (do_for_each func settle i xs res e).2
        = log e ++ sequential_log i xs (ready <$> us)
    | exceptional ex =>
        length us < length xs ∧
        log (do_for_each func settle i xs res e).2
        = log e ++ sequential_log i xs ((ready <$> us) ++ [exceptional ex])
    end.
Proof.
  revert i res e. induction xs as [|x xs IH]; intros i res e.
  - exists []. cbn. by rewrite !app_nil_r.
  - cbn [do_for_each]. unfold bind, push_back_action, bind, futurize_invoke,
      resolve.
    destruct (func x (user e)) as [tk s1]. cbn [user log].
    destruct (settle tk s1) as [[u|ex] s2]; cbn [ret user log].
    + destruct (IH (S i) (res ++ [u])
                  {| user := s2;
                     log := (log e ++ [invoked i x]) ++ [settled i (ready u)] |})
        as [us Hus].
      exists (u :: us).
      destruct (do_for_each func settle (S i) xs (res ++ [u]) _) as [[res'|ex] e'];
        cbn [fst snd log] in Hus |- *.
      * destruct Hus as (-> & Hlen & ->). repeat split.
        -- by rewrite <- app_assoc.
        -- cbn. by rewrite Hlen.
        -- by rewrite <- !app_assoc.
      * destruct Hus as (Hlen & ->). split; [cbn; lia|].
        by rewrite <- !app_assoc.
    + exists []. cbn. split; [lia|].
      by rewrite sequential_log_nil_r, <- !app_assoc.
Qed.

Lemma sequential_log_invoked i0 (xs : list T) (rs : list (future exn U)) p i x :
  sequential_log i0 xs rs !! p = Some (invoked i x) →
  ∃ k, p = 2 * k ∧ i = i0 + k ∧ xs !! k = Some x ∧ k < length rs.
Proof.
  revert i0 rs p. induction xs as [|y xs IH]; intros i0 [|r rs] p; try done.
  destruct p as [|[|p]]; cbn.
  - intros [= <- <-]. exists 0. repeat split; cbn; lia.
  - done.
  - intros H. destruct (IH _ _ _ H) as (k & -> & -> & Hx & Hk).
    exists (S k). repeat split; cbn; try done; lia.
Qed.

Lemma sequential_log_settled i0 (xs : list T) (rs : list (future exn U)) k r :
  k < length xs → rs !! k = Some r →
  sequential_log i0 xs rs !! (2 * k + 1) = Some (settled (i0 + k) r).
Proof.
  revert i0 rs k. induction xs as [|y xs IH]; intros i0 [|r' rs] k; cbn; try lia;
    try done.
  destruct k as [|k]; cbn.
  - intros _ [= ->]. by rewrite Nat.add_0_r.
  - intros Hk Hr. replace (k + S (k + 0) + 1) with (S (2 * k + 1)) by lia.
    cbn [lookup list_lookup]. replace (i0 + S k) with (S i0 + k) by lia.
    apply IH; [lia|done].
Qed.

Lemma sequential_log_invoked_at i0 (xs : list T) (rs : list (future exn U)) k x :
  xs !! k = Some x → k < length rs →
  sequential_log i0 xs rs !! (2 * k) = Some (invoked (i0 + k) x).
Proof.
  revert i0 rs k. induction xs as [|y xs IH]; intros i0 [|r' rs] k; cbn; try lia;
    try done.
  destruct k as [|k]; cbn.
  - intros [= ->] _. by rewrite Nat.add_0_r.
  - intros Hx Hk. replace (k + S (k + 0)) with (S (2 * k)) by lia.
    cbn [lookup list_lookup]. replace (i0 + S k) with (S i0 + k) by lia.
    apply IH; [done|lia].
Qed.

Lemma sequential_log_length i0 (xs : list T) (rs : list (future exn U)) :
  length (sequential_log i0 xs rs) = 2 * (length xs `min` length rs).
Proof.
  revert i0 rs. induction xs as [|y xs IH]; intros i0 [|r rs]; cbn; try done.
  rewrite IH. lia.
Qed.

Lemma sequential_log_order (xs : list T) (rs : list (future exn U)) p i x :
  (∀ i, S i < length rs → ∃ u, rs !! i = Some (ready u)) →
  sequential_log 0 xs rs !! p = Some (invoked (S i) x) →
  ∃ q u, q < p ∧ sequential_log 0 xs rs !! q = Some (settled i (ready u)).
Proof.
  intros Hrs Hp.
  apply sequential_log_invoked in Hp as (k & -> & Hk & Hx & Hlt).
  cbn in Hk. subst k. destruct (Hrs i Hlt) as [u Hu].
  exists (2 * i + 1), u. split; [lia|].
  apply (sequential_log_settled 0); [|done].
  apply lookup_lt_Some in Hx. lia.
Qed.

(** C6. [async_transform] calls the user function on an element only after
    the future returned for the element before it has resolved with a
    value. When it resolves with a value, that value holds one result per
    element, in the order of the input, and every element was invoked and
    settled in turn. When it fails, it fails with the exception of the
    first element whose future failed: the elements before it resolved
    with a value, that failure is the last event, no element after it is
    invoked, and no result is returned. *)
Theorem async_transform_sequential (xs : list T) (e : env) :
  ∃ new : list (event T U exn),
    log (async_transform func settle xs e).2 = log e ++ new ∧
    (∀ p i x, new !! p = Some (invoked (S i) x) →
       ∃ q u, q < p ∧ new !! q = Some (settled i (ready u))) ∧
    match (async_transform func settle xs e).1 with
    | ready res =>
        length res = length xs ∧
        ∀ i x, xs !! i = Some x →
          ∃ u, res !! i = Some u ∧
               new !! (2 * i) = Some (invoked i x) ∧
               new !! (2 * i + 1) = Some (settled i (ready u))
    | exceptional ex =>
        ∃ k x, xs !! k = Some x ∧
               new !! (2 * k) = Some (invoked k x) ∧
               new !! (2 * k + 1) = Some (settled k (exceptional ex)) ∧
               length new = 2 * k + 2 ∧
               (∀ j, j < k → ∃ u, new !! (2 * j + 1) = Some (settled j (ready u))) ∧
               (∀ j y, k < j → invoked j y ∉ new)
    end.
Proof.
  unfold async_transform, bind.
  destruct (do_for_each_spec xs 0 [] e) as [us Hus].
  destruct (do_for_each func settle 0 xs [] e) as [[res|ex] e'];
    cbn [fst snd ret] in Hus |- *.
  - destruct Hus as (-> & Hlen & ->). cbn [app].
    exists (sequential_log 0 xs (ready <$> us)). split; [done|]. split.
    + intros p i x. apply sequential_log_order.
      intros j Hj. rewrite length_fmap in Hj.
      destruct (lookup_lt_is_Some_2 us j) as [u Hu]; [lia|].
      exists u. by rewrite list_lookup_fmap, Hu.
    + split; [done|]. intros i x Hx.
      destruct (lookup_lt_is_Some_2 us i) as [u Hu].
      { apply lookup_lt_Some in Hx. lia. }
      exists u. split; [done|]. split.
      * apply (sequential_log_invoked_at 0); [done|].
        rewrite length_fmap. by eapply lookup_lt_Some.
      * apply (sequential_log_settled 0); [by eapply lookup_lt_Some|].
        by rewrite list_lookup_fmap, Hu.
  - destruct Hus as (Hlen & ->).
    exists (sequential_log 0 xs ((ready <$> us) ++ [exceptional ex])).
    split; [done|]. split.
    + intros p i x. apply sequential_log_order.
      intros j Hj. rewrite length_app, length_fmap in Hj. cbn in Hj.
      destruct (lookup_lt_is_Some_2 us j) as [u Hu]; [lia|].
      exists u. rewrite lookup_app_l by (rewrite length_fmap; lia).
      by rewrite list_lookup_fmap, Hu.
    + destruct (lookup_lt_is_Some_2 xs (length us)) as [x Hx]; [done|].
      exists (length us), x. split; [done|]. split; [|split; [|split; [|split]]].
      * apply (sequential_log_invoked_at 0); [done|].
        rewrite length_app, length_fmap. cbn. lia.
      * apply (sequential_log_settled 0); [done|].
        rewrite lookup_app_r by (rewrite length_fmap; lia).
        by rewrite length_fmap, Nat.sub_diag.
      * rewrite sequential_log_length, length_app, length_fmap. cbn. lia.
      * intros j Hj. destruct (lookup_lt_is_Some_2 us j) as [u Hu]; [done|].
        exists u. apply (sequential_log_settled 0); [lia|].
        rewrite lookup_app_l by (by rewrite length_fmap).
        by rewrite list_lookup_fmap, Hu.
      * intros j y Hj (p & Hp)%list_elem_of_lookup_1.
        apply sequential_log_invoked in Hp as (k & _ & Hk & _ & Hlt).
        rewrite length_app, length_fmap in Hlt. cbn in Hk, Hlt. lia.
Qed.
(** ** [parallel_transform] *)

Lemma transform_spec (xs : list T) (i : nat) (e : env (T:=T) (U:=U) (exn:=exn) (St:=St)) :
  length (transform func i xs e).1 = length xs ∧
  log (transform func i xs e).2 = log e ++ invocations i xs.
Proof.
  revert i e. induction xs as [|x xs IH]; intros i e.
  - cbn. by rewrite app_nil_r.
  - cbn [transform]. unfold bind, futurize_invoke.
    destruct (func x (user e)) as [tk s1]. cbn [user log].
    specialize (IH (S i) {| user := s1; log := log e ++ [invoked i x] |}).
    destruct (transform func (S i) xs _) as [tks e']. cbn [fst snd ret log] in IH |- *.
    destruct IH as [Hlen ->]. split; [cbn; by rewrite Hlen|]. by rewrite <- app_assoc.
Qed.

Lemma reactor_spec (sched : list nat) (res : list task)
  (done : gmap nat (future exn U)) (e : env (T:=T)) :
  ∃ new,
    log (reactor settle sched res done e).2 = log e ++ new ∧
    done ⊆ (reactor settle sched res done e).1 ∧
    (∀ ev, ev ∈ new ↔
       ∃ i r, ev = settled i r ∧ done !! i = None ∧
              (reactor settle sched res done e).1 !! i = Some r) ∧
    (∀ i, is_Some ((reactor settle sched res done e).1 !! i) ↔
       is_Some (done !! i) ∨ (i ∈ sched ∧ i < length res)).
Proof.
  revert done e. induction sched as [|i sched IH]; intros done e.
  - exists []. cbn. rewrite app_nil_r. split; [done|]. split; [done|]. split.
    + intros ev. split; [by intros ?%elem_of_nil|].
      intros (j & r & _ & Hn & Hs). by rewrite Hn in Hs.
    + intros j. split; [by left|].
      by intros [?|[?%elem_of_nil _]].
  - cbn [reactor].
    destruct (res !! i) as [tk|] eqn:Hres;
      [destruct (done !! i) as [r0|] eqn:Hdone|].
    + (* already resolved: skipped *)
      destruct (IH done e) as (new & Hlog & Hsub & Hnew & Hdom).
      exists new. split; [done|]. split; [done|]. split; [done|].
      intros j. rewrite Hdom, elem_of_cons. split; [tauto|].
      intros [?|[[->|?] ?]]; [tauto| |tauto]. left. by rewrite Hdone.
    + (* the future of position i resolves *)
      unfold bind, resolve. destruct (settle tk (user e)) as [r s1].
      cbn [user log].
      destruct (IH (<[i:=r]> done)
                  {| user := s1; log := log e ++ [settled i r] |})
        as (new & Hlog & Hsub & Hnew & Hdom).
      cbn [log] in Hlog.
      assert ((reactor settle sched res (<[i:=r]> done)
                 {| user := s1; log := log e ++ [settled i r] |}).1 !! i
              = Some r) as Hi.
      { eapply lookup_weaken; [|exact Hsub]. apply lookup_insert_eq. }
      exists (settled i r :: new). split; [|split; [|split]].
      * rewrite Hlog. by rewrite <- app_assoc.
      * etrans; [|exact Hsub]. by apply insert_subseteq.
      * intros ev. rewrite elem_of_cons, Hnew. split.
        -- intros [->|(j & r' & -> & Hn & Hs)]; [by exists i, r|].
           exists j, r'. split; [done|]. split; [|done].
           apply lookup_insert_None in Hn. tauto.
        -- intros (j & r' & -> & Hn & Hs).
           destruct (decide (j = i)) as [->|Hne].
           ++ rewrite Hi in Hs. injection Hs as <-. by left.
           ++ right. exists j, r'. split; [done|]. split; [|done].
              by rewrite lookup_insert_ne.
      * intros j. rewrite Hdom, elem_of_cons.
        destruct (decide (j = i)) as [->|Hne].
        -- rewrite lookup_insert_eq. apply lookup_lt_Some in Hres.
           split; [|by left]. intros _. right. split; [by left|done].
        -- rewrite lookup_insert_ne by done. split; [tauto|].
           intros [?|[[?|?] ?]]; tauto.
    + (* no such position: skipped *)
      destruct (IH done e) as (new & Hlog & Hsub & Hnew & Hdom).
      exists new. split; [done|]. split; [done|]. split; [done|].
      intros j. rewrite Hdom, elem_of_cons. split; [tauto|].
      intros [?|[[->|?] Hlt]]; [tauto| |tauto].
      apply lookup_ge_None in Hres. lia.
Qed.

Lemma resolved_range_spec (n i : nat) (done : gmap nat (future exn U)) :
  (∀ j, i ≤ j < i + n → is_Some (done !! j)) →
  ∃ rs, resolved_range i n done = Some rs ∧ length rs = n ∧
        ∀ k, k < n → rs !! k = done !! (i + k).
Proof.
  revert i. induction n as [|n IH]; intros i Hall.
  - exists []. repeat split. intros k Hk. lia.
  - cbn. destruct (Hall i) as [r Hr]; [lia|]. rewrite Hr.
    destruct (IH (S i)) as (rs & -> & Hlen & Hrs).
    { intros j Hj. apply Hall. lia. }
    exists (r :: rs). split; [done|]. split; [cbn; by rewrite Hlen|].
    intros [|k] Hk; cbn.
    + by rewrite Nat.add_0_r.
    + rewrite Hrs by lia. f_equal. lia.
Qed.



(** Every element is invoked, in order, before any future is awaited,
    whatever the schedule. *)
Lemma parallel_transform_invokes_first (sched : list nat) (xs : list T)
  (e : env (T:=T)) :
  ∃ new,
    log (parallel_transform func settle pick sched xs e).2
    = log e ++ invocations 0 xs ++ new ∧
    Forall is_settled new.
Proof.
  unfold parallel_transform, bind.
  pose proof (transform_spec xs 0 e) as [Hlen Hlog1].
  destruct (transform func 0 xs e) as [res e1]. cbn [fst snd] in Hlen, Hlog1.
  destruct (reactor_spec sched res ∅ e1) as (new & Hlog2 & _ & Hnew & _).
  destruct (reactor settle sched res ∅ e1) as [done e2].
  cbn [fst snd ret] in *. exists new. split.
  - by rewrite Hlog2, Hlog1, <- app_assoc.
  - apply Forall_forall. intros ev (i & r & -> & _)%Hnew. exact I.
Qed.

End transforms.


(** Concrete runs. *)
Example async_transform_stops_at_failure :
  async_transform count_call double_unless_three [5; 3; 7] no_events
  = (exceptional "three",
     {| user := 2;
        log := [invoked 0 5; settled 0 (ready 10);
                invoked 1 3; settled 1 (exceptional "three")] |}).
Proof. reflexivity. Qed.

Example async_transform_in_order :
  async_transform count_call double_unless_three [5; 6; 7] no_events
  = (ready [10; 12; 14],
     {| user := 3;
        log := [invoked 0 5; settled 0 (ready 10);
                invoked 1 6; settled 1 (ready 12);
                invoked 2 7; settled 2 (ready 14)] |}).
Proof. reflexivity. Qed.

Example parallel_transform_out_of_order_schedule :
  parallel_transform count_call double_unless_three first_exception
    [2; 0; 1] [5; 6; 7] no_events
  = (Some (ready [10; 12; 14]),
     {| user := 3;
        log := [invoked 0 5; invoked 1 6; invoked 2 7;
                settled 2 (ready 14); settled 0 (ready 10);
                settled 1 (ready 12)] |}).
Proof. vm_compute. reflexivity. Qed.

Example parallel_transform_failure_after_all_calls :
  parallel_transform count_call double_unless_three first_exception
    [0; 1; 2] [3; 6; 7] no_events
  = (Some (exceptional "three"),
     {| user := 3;
        log := [invoked 0 3; invoked 1 6; invoked 2 7;
                settled 0 (exceptional "three"); settled 1 (ready 12);
                settled 2 (ready 14)] |}).
Proof. vm_compute. reflexivity. Qed.

End SsxProps.

Module KafkaProps.
Import kafka.
Local Open Scope Z_scope.

Section join_group.
Context {rest reader groups error_code join_group_response response_ptr exn
         : Type}.
Variable data_decode : reader → Z → join_group_request_data rest.
Variable unsupported_version : error_code.
Variable error_response : error_code → join_group_response.
Variable join_group join_group' :
  join_group_request rest → groups → future exn join_group_response * groups.
Variable respond :
  request_context reader groups → join_group_response → response_ptr.
(** The error code a response carries ([data.error_code]). *)
Variable response_error : join_group_response → error_code.

(** C10. For a request whose decoded data carries a group_instance_id,
    [process] responds with a join_group_response whose error code is
    unsupported_version, leaves the group manager as it is and never calls
    its [join_group]. For a request without one it passes the decoded
    request to [join_group], once, and responds with the reply that comes
    back (an exception of [join_group] is passed on). The constructor
    [join_group_response(error_code)] is taken to store the error code it
    is given. *)
Theorem process_rejects_static_members
  (ctx : request_context reader groups) :
  (∀ ec, response_error (error_response ec) = ec) →
  (is_Some (group_instance_id (data (decode data_decode ctx))) →
     ∃ r, process data_decode unsupported_version error_response join_group
            respond ctx
          = (ready (respond ctx r), groups_of ctx, []) ∧
          response_error r = unsupported_version ∧
          process data_decode unsupported_version error_response join_group
            respond ctx
          = process data_decode unsupported_version error_response join_group'
              respond ctx) ∧
  (group_instance_id (data (decode data_decode ctx)) = None →
     process data_decode unsupported_version error_response join_group
       respond ctx
     = (match (join_group (decode data_decode ctx) (groups_of ctx)).1 with
        | ready reply => ready (respond ctx reply)
        | exceptional ex => exceptional ex
        end,
        (join_group (decode data_decode ctx) (groups_of ctx)).2,
        [decode data_decode ctx])).
Proof.
  intros Hctor. unfold process. split.
  - intros [gid Hgid]. rewrite Hgid.
    exists (error_response unsupported_version). by rewrite Hctor.
  - intros ->.
    by destruct (join_group (decode data_decode ctx) (groups_of ctx))
      as [[reply|ex] g].
Qed.
End join_group.

Lemma process_rejects_static_members_witness :
  ∃ r, process read_instance_id 35 id counting_join (λ _ r, r)
         static_member_ctx
       = (ready r, 0%nat, []) ∧ r = 35.
Proof.
  destruct (process_rejects_static_members (exn := string) read_instance_id 35
              id counting_join counting_join (λ _ r, r) id static_member_ctx
              (λ ec, eq_refl)) as [H _].
  destruct (H (ex_intro _ "instance-1" eq_refl)) as (r & Hp & Hr & _).
  exists r. split; assumption.
Defined.

End KafkaProps.

(** * Further properties of the code *)

Module TransportProps.
Import rpc calls samples.
Local Open Scope Z_scope.

(** ** [map_result] *)

(** X1. [map_result] delivers a value exactly for status success, and the
    value is then the response header with the payload it was given; this
    needs nothing of the other enumerators. *)
Theorem map_result_ok_iff (st : status.codes) (T : Type) (h : header) (d : T)
  (c : client_context T) :
  map_result st h d = ok c ↔
  meta h = status.success st ∧ c = {| hdr := h; data := d |}.
Proof.
  unfold map_result; cbv zeta. split.
  - repeat case_decide; intros [= <-] || discriminate. by split.
  - intros [Hm ->]. by rewrite decide_True.
Qed.

(** X2. The only error codes [map_result] ever produces are
    client_request_timeout, service_error and method_not_found; it reports
    client_request_timeout only for status request_timeout and
    method_not_found only for status method_not_found, so every status it
    does not know ends as service_error. *)
Theorem map_result_error_codes (st : status.codes) (T : Type) (h : header)
  (d : T) :
  match map_result st h d with
  | ok c => True
  | failure e =>
      meta h ≠ status.success st ∧
      e ∈ [errc.client_request_timeout; errc.service_error;
           errc.method_not_found] ∧
      (e = errc.client_request_timeout → meta h = status.request_timeout st) ∧
      (e = errc.method_not_found → meta h = status.method_not_found st)
  end.
Proof.
  unfold map_result; cbv zeta.
  repeat case_decide; try done; (split; [done|]); split;
    try (rewrite !elem_of_cons; tauto); split; intros [=]; done.
Qed.

(** ** Callers entering [send_typed] in a row *)

Lemma send_typed_entries_cons m o cs t :
  send_typed_entries ((m, o) :: cs) t
  = (((send_typed_entry m o t).1.1, (send_typed_entry m o t).1.2)
       :: (send_typed_entries cs (send_typed_entry m o t).2).1,
     (send_typed_entries cs (send_typed_entry m o t).2).2).
Proof.
  cbn [send_typed_entries].
  destruct (send_typed_entry m o t) as [[b seq] t1]. cbn [fst snd].
  by destruct (send_typed_entries cs t1) as [rest t2].
Qed.

(** X3. When callers enter [send_typed] one after the other, the caller at
    position k (from 0) takes the sequence (_seq + k + 1) mod 2^64, the
    counter ends at the sequence of the last caller (or where it was, with
    no caller), and the probe has counted one request per caller. *)
Theorem send_typed_entries_sequences (cs : list (Z * client_opts))
  (t : transport) :
  length (send_typed_entries cs t).1 = length cs ∧
  (∀ k e, (send_typed_entries cs t).1 !! k = Some e →
     e.2 = wrap 64 (_seq t + Z.of_nat k + 1)) ∧
  _seq (send_typed_entries cs t).2
  = default (_seq t) (last (send_typed_entries cs t).1.*2) ∧
  _probe (send_typed_entries cs t).2 = (_probe t + length cs)%nat.
Proof.
  revert t. induction cs as [|[m o] cs IH]; intros t.
  - cbn. repeat split; [done|lia].
  - rewrite send_typed_entries_cons. cbn [fst snd].
    destruct (IH (send_typed_entry m o t).2) as (Hlen & Hseq & Hlast & Hprobe).
    split; [cbn [length]; by rewrite Hlen|]. split; [|split].
    + intros [|k] e; cbn [lookup list_lookup].
      * intros [= <-]. cbn [snd]. unfold send_typed_entry.
        cbn [fst snd _seq set_probe]. f_equal. lia.
      * intros He. rewrite (Hseq k e He).
        change (_seq (send_typed_entry m o t).2) with (wrap 64 (_seq t + 1)).
        rewrite <- Z.add_assoc, RpcProps.wrap_wrap_add. f_equal. lia.
    + rewrite Hlast, fmap_cons. cbn [snd].
      destruct ((send_typed_entries cs (send_typed_entry m o t).2).1.*2)
        as [|z l]; [reflexivity|].
      rewrite last_cons_cons. destruct (last (z :: l)) eqn:E; [done|].
      by apply last_None in E.
    + rewrite Hprobe. unfold send_typed_entry.
      cbn [fst snd _probe set_seq set_probe length]. lia.
Qed.

Lemma wrap_eq_close (a b : Z) :
  wrap 64 a = wrap 64 b → - 2 ^ 64 < a - b < 2 ^ 64 → a = b.
Proof.
  unfold wrap. intros Heq Hd.
  pose proof (Z.div_mod a (2 ^ 64) ltac:(lia)) as Ha.
  pose proof (Z.div_mod b (2 ^ 64) ltac:(lia)) as Hb.
  rewrite Heq in Ha.
  assert (a - b = 2 ^ 64 * (a `div` 2 ^ 64 - b `div` 2 ^ 64)) as Hab by lia.
  assert (a `div` 2 ^ 64 - b `div` 2 ^ 64 = 0) by nia. lia.
Qed.

(** X4. Up to 2^64 callers in a row take pairwise different sequences,
    whatever the value of the counter when the first one enters: a key of
    the ordered queue can only repeat once the counter has gone all the way
    round. *)
Theorem send_typed_entries_distinct (cs : list (Z * client_opts))
  (t : transport) :
  Z.of_nat (length cs) ≤ 2 ^ 64 →
  NoDup (send_typed_entries cs t).1.*2.
Proof.
  intros Hn. destruct (send_typed_entries_sequences cs t) as (Hlen & Hseq & _).
  apply NoDup_alt. intros i j s Hi Hj.
  apply list_lookup_fmap_Some in Hi as (ei & -> & Hi).
  apply list_lookup_fmap_Some in Hj as (ej & Hs & Hj).
  pose proof (lookup_lt_Some _ _ _ Hi) as Hil.
  pose proof (lookup_lt_Some _ _ _ Hj) as Hjl.
  rewrite (Hseq _ _ Hi), (Hseq _ _ Hj) in Hs.
  apply wrap_eq_close in Hs; lia.
Qed.

Lemma send_typed_entries_distinct_witness :
  NoDup (send_typed_entries
           [(7, mk_client_opts 50 0 0); (8, mk_client_opts 50 1 1024)]
           (set_seq (2 ^ 64 - 1) (fresh_transport 0))).1.*2.
Proof.
  apply (send_typed_entries_distinct
           [(7, mk_client_opts 50 0 0); (8, mk_client_opts 50 1 1024)]
           (set_seq (2 ^ 64 - 1) (fresh_transport 0))).
  vm_compute. discriminate.
Defined.

(** X5. Entering [send_typed] allocates nothing: after any number of
    callers the correlation table, the correlation counter, the ordered
    queue, the memory semaphore, [_last_seq], the input stream and the
    socket are as before; and each caller's netbuf carries its method id and
    its compression options, an empty buffer, and no correlation id yet. *)
Theorem send_typed_entries_frame (cs : list (Z * client_opts)) (t : transport) :
  _correlations (send_typed_entries cs t).2 = _correlations t ∧
  _correlation_idx (send_typed_entries cs t).2 = _correlation_idx t ∧
  _requests_queue (send_typed_entries cs t).2 = _requests_queue t ∧
  _memory (send_typed_entries cs t).2 = _memory t ∧
  _last_seq (send_typed_entries cs t).2 = _last_seq t ∧
  _in (send_typed_entries cs t).2 = _in t ∧
  _fd (send_typed_entries cs t).2 = _fd t ∧
  Forall2 (λ c e, nb_service_method_id e.1 = c.1 ∧
                  nb_compression e.1 = opt_compression c.2 ∧
                  nb_min_compression_bytes e.1 = opt_min_compression_bytes c.2 ∧
                  nb_correlation_id e.1 = 0 ∧ buffer e.1 = [])
    cs (send_typed_entries cs t).1.
Proof.
  revert t. induction cs as [|[m o] cs IH]; intros t.
  - cbn. repeat split; constructor.
  - rewrite send_typed_entries_cons. cbn [fst snd].
    destruct (IH (send_typed_entry m o t).2)
      as (H1 & H2 & H3 & H4 & H5 & H6 & H7 & H8).
    rewrite H1, H2, H3, H4, H5, H6, H7.
    repeat split. by constructor.
Qed.

(** ** One call of [send_typed] *)

Section send_typed.
Context {Input Output exn : Type}.
Variable adl_to : Input → future exn (list Byte.byte).
Variable do_send :
  Z → netbuf → client_opts → transport → result streaming_context * transport.
Variable parse_type : input_stream → header → future exn Output * input_stream.
Variable st : status.codes.

(** X6. When the serialization of the input fails, [send_typed] fails with
    that exception without calling [do_send] and without reading from the
    connection; the request has been counted and its sequence is spent all
    the same (the counter has moved on), while the correlation table, the
    correlation counter, the queue and the semaphore are untouched. *)
Theorem send_typed_serialization_failure (r : Input) (method_id : Z)
  (opts : client_opts) (t : transport) (ex : exn) :
  adl_to r = exceptional ex →
  ∃ t',
    send_typed adl_to do_send parse_type st r method_id opts t
    = (exceptional ex, t', None, []) ∧
    _seq t' = wrap 64 (_seq t + 1) ∧
    _probe t' = S (_probe t) ∧
    _in t' = _in t ∧
    _correlations t' = _correlations t ∧
    _correlation_idx t' = _correlation_idx t ∧
    _requests_queue t' = _requests_queue t ∧
    _memory t' = _memory t.
Proof.
  intros Hto. unfold send_typed, send_typed_entry.
  rewrite Hto. eexists. repeat split.
Qed.

(** X7. When the serialization succeeds, [do_send] is called once, with the
    sequence taken on entry, the caller's options, and a netbuf that holds
    the serialized bytes, the method id and the compression options; the
    result of [send_typed] is what the last continuation makes of the
    result of that call. *)
Theorem send_typed_hands_to_do_send (r : Input) (method_id : Z)
  (opts : client_opts) (t : transport) (bytes : list Byte.byte) :
  adl_to r = ready bytes →
  ∃ b,
    (send_typed adl_to do_send parse_type st r method_id opts t).1.2
    = Some (wrap 64 (_seq t + 1), b, opts) ∧
    buffer b = bytes ∧
    nb_service_method_id b = method_id ∧
    nb_compression b = opt_compression opts ∧
    nb_min_compression_bytes b = opt_min_compression_bytes opts ∧
    send_typed adl_to do_send parse_type st r method_id opts t
    = (let '(sctx, t2) :=
         do_send (wrap 64 (_seq t + 1)) b opts
           (set_seq (wrap 64 (_seq t + 1)) (set_probe (S (_probe t)) t)) in
       let '(out, t3, cs) := send_typed_reply parse_type st sctx t2 in
       (out, t3, Some (wrap 64 (_seq t + 1), b, opts), cs)).
Proof.
  intros Hto. unfold send_typed, send_typed_entry.
  rewrite Hto. cbn [set_probe _seq _probe].
  exists (set_buffer bytes
            (set_service_method_id method_id
               (set_min_compression_bytes (opt_min_compression_bytes opts)
                  (set_compression (opt_compression opts) new_netbuf)))).
  split; [|repeat split].
  destruct (do_send _ _ _ _) as [sctx t2].
  by destruct (send_typed_reply parse_type st sctx t2) as [[out t3] cs].
Qed.

(** X8. [send_typed] delivers a value exactly when the serialization gave
    bytes, [do_send] on the netbuf, sequence and transport of the entry
    resolved with a streaming context, [parse_type] decoded the payload,
    and the status of the response header is success; the value is then
    that header with the decoded payload. *)
Theorem send_typed_value_iff (r : Input) (method_id : Z) (opts : client_opts)
  (t : transport) (c : client_context Output) :
  (send_typed adl_to do_send parse_type st r method_id opts t).1.1.1
  = ready (ok c) ↔
  ∃ bytes sc t2 o,
    adl_to r = ready bytes ∧
    do_send (send_typed_entry method_id opts t).1.2
      (set_buffer bytes (send_typed_entry method_id opts t).1.1) opts
      (send_typed_entry method_id opts t).2
    = (ok sc, t2) ∧
    (parse_type (_in t2) (get_header sc)).1 = ready o ∧
    meta (get_header sc) = status.success st ∧
    c = {| hdr := get_header sc; data := o |}.
Proof.
  unfold send_typed.
  destruct (send_typed_entry method_id opts t) as [[b seq] t1]. cbn [fst snd].
  destruct (adl_to r) as [bytes|ex] eqn:Hto.
  - destruct (do_send seq (set_buffer bytes b) opts t1) as [[sc|e] t2] eqn:Hds;
      cbn [send_typed_reply].
    + destruct (parse_type (_in t2) (get_header sc)) as [[o|ex] in'] eqn:Hp;
        cbn [fst snd].
      * split.
        -- intros [= Hm]. unfold map_result in Hm; cbv zeta in Hm.
           repeat case_decide; try discriminate. injection Hm as <-.
           exists bytes, sc, t2, o. repeat split; try done. by rewrite Hp.
        -- intros (bytes' & sc' & t2' & o' & [= <-] & Hd & Hp' & Hm & ->).
           rewrite Hds in Hd. injection Hd as <- <-.
           rewrite Hp in Hp'. cbn in Hp'. injection Hp' as <-.
           unfold map_result; cbv zeta. by rewrite decide_True.
      * split; [done|].
        intros (bytes' & sc' & t2' & o' & [= <-] & Hd & Hp' & _).
        rewrite Hds in Hd. injection Hd as <- <-.
        rewrite Hp in Hp'. done.
    + split; [done|].
      intros (bytes' & sc' & t2' & o' & [= <-] & Hd & _).
      rewrite Hds in Hd. done.
  - split; [done|]. by intros (bytes' & sc' & t2' & o' & [=] & _).
Qed.

(** X9. On a streaming context the continuation of [send_typed] reads the
    payload whatever the status of the header: the input stream is left as
    [parse_type] leaves it and nothing else of the transport changes.
    [signal_body_parse] is called exactly when [parse_type] returned a
    value, after it and before [map_result]; when [parse_type] throws, the
    call fails with that exception and neither [signal_body_parse] nor
    [map_result] is called. *)
Theorem send_typed_reply_signal_iff (sc : streaming_context) (t : transport) :
  let '(out, t', cs) := send_typed_reply parse_type st (ok sc) t in
  _in t' = (parse_type (_in t) (get_header sc)).2 ∧
  set_in (_in t) t' = t ∧
  (call_signal_body_parse ∈ cs ↔
   ∃ o, (parse_type (_in t) (get_header sc)).1 = ready o) ∧
  (∀ ex, (parse_type (_in t) (get_header sc)).1 = exceptional ex →
         out = exceptional ex ∧ cs = [call_parse_type (get_header sc)]) ∧
  (∀ o, (parse_type (_in t) (get_header sc)).1 = ready o →
        out = ready (map_result st (get_header sc) o) ∧
        cs = [call_parse_type (get_header sc); call_signal_body_parse;
              call_map_result (get_header sc)]).
Proof.
  unfold send_typed_reply.
  destruct (parse_type (_in t) (get_header sc)) as [[o|ex] in'];
    cbn [fst snd]; (split; [done|]); (split; [by destruct t|]); split.
  - split; [by eexists|]. intros _. rewrite !elem_of_cons. tauto.
  - split; [done|]. intros o' [= <-]. done.
  - split; [|by intros [? [=]]].
    rewrite elem_of_cons, elem_of_nil. by intros [[=]|?].
  - split; [by intros ? [= <-]|done].
Qed.
End send_typed.

Lemma send_typed_serialization_failure_witness :
  ∃ t',
    send_typed throwing_to disconnected_send parse_zero status.wire_codes
      5%nat 7 (mk_client_opts 50 0 0) (fresh_transport 100)
    = (exceptional "cannot serialize", t', None, []) ∧
    _seq t' = wrap 64 (_seq (fresh_transport 100) + 1) ∧
    _probe t' = S (_probe (fresh_transport 100)) ∧
    _in t' = _in (fresh_transport 100) ∧
    _correlations t' = _correlations (fresh_transport 100) ∧
    _correlation_idx t' = _correlation_idx (fresh_transport 100) ∧
    _requests_queue t' = _requests_queue (fresh_transport 100) ∧
    _memory t' = _memory (fresh_transport 100).
Proof.
  apply (send_typed_serialization_failure throwing_to disconnected_send
           parse_zero status.wire_codes 5%nat 7 (mk_client_opts 50 0 0)
           (fresh_transport 100) "cannot serialize").
  reflexivity.
Defined.

Lemma send_typed_hands_to_do_send_witness :
  ∃ b,
    (send_typed one_byte_to disconnected_send parse_zero status.wire_codes
       5%nat 7 (mk_client_opts 50 1 1024) (fresh_transport 100)).1.2
    = Some (1, b, mk_client_opts 50 1 1024) ∧
    buffer b = [Byte.x2a] ∧ nb_service_method_id b = 7.
Proof.
  destruct (send_typed_hands_to_do_send one_byte_to disconnected_send
              parse_zero status.wire_codes 5%nat 7 (mk_client_opts 50 1 1024)
              (fresh_transport 100) [Byte.x2a] eq_refl)
    as (b & H1 & H2 & H3 & _).
  exists b. split; [exact H1|]. split; [exact H2 | exact H3].
Defined.

End TransportProps.

Module TransformProps.
Import ssx samples.

Section transforms.
Context {T U St exn task : Type}.
Variable func : T → St → task * St.
Variable settle : task → St → future exn U * St.
Variable pick : exn → list exn → exn.

Lemma reactor_no_tasks (sched : list nat) (done : gmap nat (future exn U))
  (e : env (T:=T)) :
  reactor settle sched [] done e = (done, e).
Proof. induction sched as [|i sched IH]; [done|]. exact IH. Qed.

(** X10. On an empty range both transforms resolve at once with an empty
    vector: the user function is not called, nothing is logged, the user's
    state is untouched; for [parallel_transform] this holds whatever the
    reactor does. *)
Theorem transforms_on_empty_input (sched : list nat) (e : env (T:=T)) :
  async_transform func settle [] e = (ready [], e) ∧
  parallel_transform func settle pick sched [] e = (Some (ready []), e).
Proof.
  split; [done|]. unfold parallel_transform, bind. cbn [transform ret length].
  by rewrite reactor_no_tasks.
Qed.

Lemma do_for_each_app (xs ys : list T) (i : nat) (res : list U)
  (e : env (T:=T)) :
  do_for_each func settle i (xs ++ ys) res e
  = match do_for_each func settle i xs res e with
    | (ready res', e1) => do_for_each func settle (i + length xs) ys res' e1
    | (exceptional ex, e1) => (exceptional ex, e1)
    end.
Proof.
  revert i res e. induction xs as [|x xs IH]; intros i res e.
  - cbn. by rewrite Nat.add_0_r.
  - cbn [app do_for_each]. unfold bind.
    destruct (push_back_action func settle i x res e) as [[res1|ex] e1];
      [|done].
    rewrite IH. cbn [length]. by rewrite Nat.add_succ_r.
Qed.

(** X11. [async_transform] over a concatenation is [async_transform] over
    the first part followed, on success, by the loop over the second part
    from where the first one ended (its results, its state, the next
    position); when the first part fails, the result and the state are
    those of the first part alone: nothing of the second part is touched. *)
Theorem async_transform_app (xs ys : list T) (e : env (T:=T)) :
  async_transform func settle (xs ++ ys) e
  = match async_transform func settle xs e with
    | (ready res, e1) =>
        match do_for_each func settle (length xs) ys res e1 with
        | (ready res', e2) => (ready res', e2)
        | (exceptional ex, e2) => (exceptional ex, e2)
        end
    | (exceptional ex, e1) => (exceptional ex, e1)
    end.
Proof.
  unfold async_transform, bind. rewrite do_for_each_app.
  destruct (do_for_each func settle 0 xs [] e) as [[res|ex] e1]; [|done].
  cbn [ret]. by destruct (do_for_each func settle _ ys res e1) as [[?|?] ?].
Qed.

Lemma do_for_each_values (h : T → U) (xs : list T) (i : nat) (res : list U)
  (e : env (T:=T)) :
  (∀ x s, (settle (func x s).1 (func x s).2).1 = ready (h x)) →
  (do_for_each func settle i xs res e).1 = ready (res ++ (h <$> xs)).
Proof.
  intros Hh. revert i res e. induction xs as [|x xs IH]; intros i res e.
  - cbn. by rewrite app_nil_r.
  - cbn [do_for_each]. unfold bind, push_back_action, bind, futurize_invoke,
      resolve.
    specialize (Hh x (user e)).
    destruct (func x (user e)) as [tk s1]. cbn [user log fst snd] in Hh |- *.
    destruct (settle tk s1) as [r s2]. cbn [fst] in Hh. subst r. cbn [ret].
    rewrite IH. cbn [fmap list_fmap]. by rewrite <- app_assoc.
Qed.

(** X12. When the future of every call resolves with the value [h x] for
    its element [x], whatever the state it runs in, [async_transform]
    resolves with the vector of the [h x] in the order of the input. *)
Theorem async_transform_maps (h : T → U) (xs : list T) (e : env (T:=T)) :
  (∀ x s, (settle (func x s).1 (func x s).2).1 = ready (h x)) →
  (async_transform func settle xs e).1 = ready (h <$> xs).
Proof.
  intros Hh. unfold async_transform, bind.
  pose proof (do_for_each_values h xs 0 [] e Hh) as H.
  destruct (do_for_each func settle 0 xs [] e) as [r e1]. cbn [fst] in H.
  by subst r.
Qed.

(** The futures [std::transform] collects are those of the calls on the
    elements, position by position. *)
Lemma transform_tasks (xs : list T) (i : nat)
  (e : env (T:=T) (U:=U) (exn:=exn) (St:=St)) k x :
  xs !! k = Some x →
  ∃ s, (transform func i xs e).1 !! k = Some (func x s).1.
Proof.
  revert i e k. induction xs as [|y xs IH]; intros i e k; [done|].
  cbn [transform]. unfold bind, futurize_invoke.
  destruct (func y (user e)) as [tk s1] eqn:Hf. cbn [user log].
  specialize (IH (S i) {| user := s1; log := log e ++ [invoked i y] |}).
  destruct (transform func (S i) xs _) as [tks e'].
  cbn [fst snd ret] in IH |- *.
  destruct k as [|k]; cbn [lookup list_lookup].
  - intros [= <-]. exists (user e). by rewrite Hf.
  - apply IH.
Qed.

(** What the reactor stores for a position is what settling the task of
    that position gave. *)
Lemma reactor_results (sched : list nat) (res : list task)
  (done : gmap nat (future exn U)) (e : env (T:=T)) i r :
  (reactor settle sched res done e).1 !! i = Some r →
  done !! i = Some r ∨ ∃ tk s, res !! i = Some tk ∧ r = (settle tk s).1.
Proof.
  revert done e. induction sched as [|j sched IH]; intros done e.
  - cbn. by left.
  - cbn [reactor].
    destruct (res !! j) as [tk|] eqn:Hres;
      [destruct (done !! j) as [r0|] eqn:Hdone|]; try apply IH.
    unfold bind, resolve. destruct (settle tk (user e)) as [r' s1] eqn:Hs.
    cbn [user log]. intros [Hd|H]%IH; [|by right].
    apply lookup_insert_Some in Hd as [[<- <-]|[_ Hd]]; [|by left].
    right. exists tk, (user e). by rewrite Hs.
Qed.

Lemma resolved_range_None (n i0 i : nat) (done : gmap nat (future exn U)) :
  i0 ≤ i < i0 + n → done !! i = None → resolved_range i0 n done = None.
Proof.
  revert i0. induction n as [|n IH]; intros i0 Hi Hnone; [lia|].
  cbn. destruct (decide (i = i0)) as [->|Hne].
  - by rewrite Hnone.
  - rewrite (IH (S i0)) by (done || lia). by destruct (done !! i0).
Qed.

(** X13. [parallel_transform] does not resolve before every future has:
    when the future of some element is never resolved (the schedule never
    reaches its position), the result stays pending, also when other
    futures have already failed. *)
Theorem parallel_transform_waits_for_all (sched : list nat) (xs : list T)
  (e : env (T:=T)) (i : nat) :
  i < length xs → i ∉ sched →
  (parallel_transform func settle pick sched xs e).1 = None.
Proof.
  intros Hi Hout. unfold parallel_transform, bind.
  pose proof (SsxProps.transform_spec func xs 0 e) as [Hlen _].
  destruct (transform func 0 xs e) as [res e1]. cbn [fst snd] in Hlen.
  destruct (SsxProps.reactor_spec settle sched res ∅ e1)
    as (new & _ & _ & _ & Hdom).
  destruct (reactor settle sched res ∅ e1) as [done e2].
  cbn [fst snd ret] in *.
  unfold when_all_succeed. rewrite (resolved_range_None _ 0 i); [done|lia|].
  apply eq_None_not_Some. intros [H|[H _]]%Hdom; [|done].
  rewrite lookup_empty in H. by destruct H.
Qed.

Lemma failures_ready (l : list U) : failures (exn:=exn) (ready <$> l) = [].
Proof. induction l as [|u l IH]; [done|]. exact IH. Qed.

Lemma values_ready (l : list U) : values (exn:=exn) (ready <$> l) = l.
Proof.
  induction l as [|u l IH]; [done|].
  change (values (ready <$> u :: l)) with (u :: values (exn:=exn) (ready <$> l)).
  by rewrite IH.
Qed.

(** X14. When the future of every call resolves with the value [h x] for
    its element [x], whatever the state at the call and at the resolution,
    and every future does resolve, [parallel_transform] resolves with the
    vector of the [h x] in the order of the input, in whatever order the
    futures resolved. *)
Theorem parallel_transform_maps (h : T → U) (sched : list nat) (xs : list T)
  (e : env (T:=T)) :
  (∀ x s s', (settle (func x s).1 s').1 = ready (h x)) →
  (∀ i, i < length xs → i ∈ sched) →
  (parallel_transform func settle pick sched xs e).1 = Some (ready (h <$> xs)).
Proof.
  intros Hh Hsched. unfold parallel_transform, bind.
  pose proof (SsxProps.transform_spec func xs 0 e) as [Hlen _].
  pose proof (λ k x, transform_tasks xs 0 e k x) as Htk.
  destruct (transform func 0 xs e) as [res e1]. cbn [fst snd] in Hlen, Htk.
  destruct (SsxProps.reactor_spec settle sched res ∅ e1)
    as (new & _ & _ & _ & Hdom).
  pose proof (λ i r, reactor_results sched res ∅ e1 i r) as Hres.
  destruct (reactor settle sched res ∅ e1) as [done e2].
  cbn [fst snd ret] in *.
  destruct (SsxProps.resolved_range_spec (length res) 0 done)
    as (rs & Hrr & Hlrs & Hrs).
  { intros j Hj. apply Hdom. right. split; [apply Hsched|]; lia. }
  unfold when_all_succeed. rewrite Hrr.
  assert (rs = ready <$> (h <$> xs)) as ->.
  { apply list_eq. intros k. rewrite !list_lookup_fmap.
    destruct (decide (k < length res)) as [Hk|Hk].
    - rewrite (Hrs k Hk). cbn [Nat.add].
      destruct (lookup_lt_is_Some_2 xs k) as [x Hx]; [lia|]. rewrite Hx.
      destruct (Htk k x Hx) as [s Hs].
      destruct (done !! k) as [r|] eqn:Hd.
      + destruct (Hres k r Hd) as [H|(tk & s' & Htk' & ->)];
          [by rewrite lookup_empty in H|].
        rewrite Hs in Htk'. injection Htk' as <-. cbn. f_equal. apply Hh.
      + assert (is_Some (done !! k)) as [? H].
        { apply Hdom. right. split; [apply Hsched|]; lia. }
        by rewrite Hd in H.
    - rewrite (lookup_ge_None_2 rs) by lia.
      by rewrite (lookup_ge_None_2 xs) by lia. }
  by rewrite failures_ready, values_ready.
Qed.
End transforms.

Lemma async_transform_maps_witness :
  (async_transform count_call always_double [5; 6; 7] no_events).1
  = ready ((λ x, 2 * x) <$> [5; 6; 7]).
Proof.
  apply (async_transform_maps count_call always_double (λ x, 2 * x) [5; 6; 7]
           no_events).
  intros x s. reflexivity.
Defined.

Lemma parallel_transform_maps_witness :
  (parallel_transform count_call always_double first_exception [2; 0; 1]
     [5; 6; 7] no_events).1
  = Some (ready ((λ x, 2 * x) <$> [5; 6; 7])).
Proof.
  apply (parallel_transform_maps count_call always_double first_exception
           (λ x, 2 * x) [2; 0; 1] [5; 6; 7] no_events).
  - intros x s s'. reflexivity.
  - intros i Hi. cbn in Hi.
    destruct i as [|[|[|i]]]; [repeat constructor..|lia].
Defined.

Lemma parallel_transform_waits_for_all_witness :
  (parallel_transform count_call double_unless_three first_exception [0; 2]
     [3; 6; 7] no_events).1 = None.
Proof.
  apply (parallel_transform_waits_for_all count_call double_unless_three
           first_exception [0; 2] [3; 6; 7] no_events 1).
  - cbn. lia.
  - rewrite !elem_of_cons, elem_of_nil. lia.
Defined.

End TransformProps.

Module HandlerProps.
Import kafka samples.
Local Open Scope Z_scope.

Section join_group.
Context {rest reader groups error_code join_group_response response_ptr exn
         : Type}.
Variable data_decode : reader → Z → join_group_request_data rest.
Variable unsupported_version : error_code.
Variable error_response : error_code → join_group_response.
Variable join_group :
  join_group_request rest → groups → future exn join_group_response * groups.
Variable respond :
  request_context reader groups → join_group_response → response_ptr.

(** X15. The future of [join_group_api::process] fails exactly when the
    request carries no group_instance_id and the future of the group
    manager's [join_group] fails, and then with the same exception: a
    request with a group_instance_id is always answered. *)
Theorem process_fails_iff (ctx : request_context reader groups) (ex : exn) :
  (process data_decode unsupported_version error_response join_group respond
     ctx).1.1 = exceptional ex ↔
  group_instance_id (data (decode data_decode ctx)) = None ∧
  (join_group (decode data_decode ctx) (groups_of ctx)).1 = exceptional ex.
Proof.
  unfold process.
  destruct (group_instance_id (data (decode data_decode ctx))) as [gid|].
  - split; [done|]. by intros [[=] _].
  - destruct (join_group (decode data_decode ctx) (groups_of ctx))
      as [[reply|ex'] g]; cbn [fst snd].
    + split; [done|]. by intros [_ [=]].
    + split; [by intros [= ->]|]. by intros [_ [= ->]].
Qed.

(** X16. A request that [process] hands to the group manager is the one
    [decode] built from the context: it has the version and the client id
    of the request header, its data were decoded with that version, and it
    has no group_instance_id; it is the only request handed over, and the
    group manager is left as that one [join_group] call leaves it. *)
Theorem process_delegates_decoded_request
  (ctx : request_context reader groups) (r : join_group_request rest) :
  r ∈ (process data_decode unsupported_version error_response join_group
         respond ctx).2 →
  version r = header_version (header ctx) ∧
  client_id r = header_client_id (header ctx) ∧
  data r = data_decode (reader_of ctx) (version r) ∧
  group_instance_id (data r) = None ∧
  (process data_decode unsupported_version error_response join_group respond
     ctx).2 = [r] ∧
  (process data_decode unsupported_version error_response join_group respond
     ctx).1.2 = (join_group r (groups_of ctx)).2.
Proof.
  unfold process.
  destruct (group_instance_id (data (decode data_decode ctx))) as [gid|] eqn:Hg.
  - cbn. by intros ?%elem_of_nil.
  - destruct (join_group (decode data_decode ctx) (groups_of ctx))
      as [[reply|ex'] g] eqn:Hj; cbn [fst snd];
      intros ->%list_elem_of_singleton; rewrite Hj; cbn [snd];
      repeat split; try done;
      unfold decode; cbn [client_id];
      by destruct (header_client_id (header ctx)).
Qed.
End join_group.

Lemma process_delegates_decoded_request_witness :
  version (decode read_instance_id dynamic_member_ctx) = 5 ∧
  (process read_instance_id 35 id counting_join (λ _ r, r)
     dynamic_member_ctx).1.2 = 1%nat.
Proof.
  destruct (process_delegates_decoded_request read_instance_id 35 id
              counting_join (λ _ r, r) dynamic_member_ctx
              (decode read_instance_id dynamic_member_ctx))
    as (Hv & _ & _ & _ & _ & Hg).
  - apply list_elem_of_singleton. reflexivity.
  - split; [exact Hv | exact Hg].
Defined.

Section alter_configs.
Context {reader groups alter_configs_request alter_configs_response
         response_ptr exn : Type}.
Variable request_decode request_decode' :
  reader → Z → exn + alter_configs_request.
Variable empty_response : alter_configs_response.
Variable respond :
  request_context reader groups → alter_configs_response → response_ptr.

(** X17. [alter_configs_api::process] does not look at what the request
    asks for: whenever the request decodes, the response is the one built
    from the default-constructed alter_configs_response, the same for any
    two decoded requests, and the request is traced once. It fails exactly
    when the decoder throws, with the decoder's exception, and then nothing
    is traced. *)
Theorem alter_configs_ignores_request (ctx : request_context reader groups) :
  (∀ rq rq',
     request_decode (reader_of ctx) (header_version (header ctx)) = inr rq →
     request_decode' (reader_of ctx) (header_version (header ctx)) = inr rq' →
     (alter_configs.process request_decode empty_response respond ctx).1
     = (alter_configs.process request_decode' empty_response respond ctx).1 ∧
     (alter_configs.process request_decode empty_response respond ctx).1
     = inr (respond ctx empty_response) ∧
     (alter_configs.process request_decode empty_response respond ctx).2
     = [rq]) ∧
  (∀ ex,
     (alter_configs.process request_decode empty_response respond ctx).1
     = inl ex ↔
     request_decode (reader_of ctx) (header_version (header ctx)) = inl ex) ∧
  (∀ ex,
     request_decode (reader_of ctx) (header_version (header ctx)) = inl ex →
     (alter_configs.process request_decode empty_response respond ctx).2 = []).
Proof.
  unfold alter_configs.process. split; [|split].
  - intros rq rq' -> ->. done.
  - intros ex. destruct (request_decode _ _) as [ex'|rq]; cbn.
    + split; by intros [= ->].
    + split; intros [=].
  - by intros ex ->.
Qed.
End alter_configs.
End HandlerProps.

Module CompositionProps.
Import client.

Section ctor.
Context {protocol cfg : Type}.

(** X18. During the construction of a client the transport member exists
    exactly from the step after the last facade on: after [n] of the
    initialisations the transport has been constructed if and only if [n]
    exceeds the number of facades. In particular, when the constructor
    returns, the transport that every facade refers to exists, also for a
    client without facades. *)
Theorem transport_constructed_iff (protocols : list protocol) (c : cfg)
  (n : nat) :
  transport_constructed n (client_ctor protocols c) = true ↔
  length protocols < n.
Proof.
  unfold transport_constructed, client_ctor.
  destruct (decide (n ≤ length protocols)) as [Hle|Hgt].
  - rewrite take_app_le by (by rewrite length_fmap).
    rewrite (ClientProps.existsb_take_false _ _ _
               (ClientProps.facades_no_transport protocols)).
    split; [done|lia].
  - rewrite take_ge by (rewrite length_app, length_fmap; cbn; lia).
    rewrite existsb_app, ClientProps.facades_no_transport. cbn.
    split; [lia|done].
Qed.
End ctor.
End CompositionProps.
